(** * De Bruijn graph construction and greedy unitig extraction

    A shallow embedding of [build_debruijn_graph] (debruijn.py) and
    [find_unitigs] (unitig.py), with the properties of the graph builder
    and of the extractor proved over it.  The read sampler
    [generate_reads] (debruijn.py) and the maximum-subarray functions of
    Divide_and_Conquer_Problem/div_n_con.py, on lists of integers, follow.

    Data model.
    - A k-mer (node) is a Python [str]: a [string].
    - A Python [dict] keeps its keys in insertion order and [find_unitigs]
      iterates [adj.keys()], so the three maps are insertion-ordered
      association lists with unique keys ([Dict]).
    - The maps are [defaultdict]s: reading a missing key stores the default
      under it.  The read operations thread the store.
    - [visited_edges] is a Python [set], only ever tested for membership:
      a [gset] of pairs.
    - Python integers are unbounded: [Z]. *)

From Stdlib Require Import ZArith String.
From stdpp Require Import gmap strings list.

Set Warnings "-clear-no-such-hyp".
Local Open Scope Z_scope.

Definition node : Type := string.
Definition edge : Type := node * node.

(** ** Insertion-ordered dictionaries *)

Module Dict.
Section dict.
Context {V : Type}.

(** [d[k]] of a plain dictionary; [None] stands for a missing key. *)
Fixpoint get (k : node) (d : list (node * V)) : option V :=
match d with
| [] => None
| (k', v) :: d' => if decide (k' = k) then Some v else get k d'
end.

(** [d[k] = v]: an existing key keeps its position, a new one goes last. *)
Fixpoint set (k : node) (v : V) (d : list (node * V)) : list (node * V) :=
match d with
| [] => [(k, v)]
| (k', v') :: d' =>
  if decide (k' = k) then (k', v) :: d' else (k', v') :: set k v d'
end.

Definition keys (d : list (node * V)) : list node := fst <$> d.
Definition values (d : list (node * V)) : list V := snd <$> d.

(** [defaultdict.__getitem__]: a missing key is first stored with the
default value ([__missing__]), then returned. *)
Definition getitem (dflt : V) (k : node) (d : list (node * V))
: V * list (node * V) :=
match get k d with
| Some v => (v, d)
| None => (dflt, set k dflt d)
end.

(** The value a [defaultdict] read returns, without the store. *)
Definition peek (dflt : V) (k : node) (d : list (node * V)) : V :=
match get k d with Some v => v | None => dflt end.
End dict.
End Dict.

Abbreviation dict V := (list (node * V)).

(** ** Python slices and ranges *)

(** The index adjustment of [s[lo:hi]]: a negative index counts from the
    end, and the result is clamped to [0, len]. *)
Definition slice_index (len i : Z) : Z :=
  if i <? 0 then Z.max 0 (i + len) else Z.min i len.

Definition slice (s : string) (lo hi : Z) : string :=
  let n := Z.of_nat (String.length s) in
  let a := slice_index n lo in
  let b := slice_index n hi in
  substring (Z.to_nat a) (Z.to_nat (b - a)) s.

(** [range(n)]: empty when [n <= 0]. *)
Definition py_range (n : Z) : list Z := Z.of_nat <$> seq 0 (Z.to_nat n).

(** ** The graph builder (debruijn.py) *)

Record graph : Type := Graph {
  adj : dict (list node);
  indeg : dict Z;
  outdeg : dict Z
}.

Definition empty_graph : graph := Graph [] [] [].

(** [adj[u].append(v)] *)
Definition append_adj (u v : node) (a : dict (list node)) : dict (list node) :=
  let '(l, a1) := Dict.getitem [] u a in Dict.set u (l ++ [v]) a1.

(** [d[x] += c] *)
Definition incr (x : node) (c : Z) (d : dict Z) : dict Z :=
  let '(n, d1) := Dict.getitem 0 x d in Dict.set x (n + c) d1.

(** The body of the inner loop, for the edge [u -> v]. *)
Definition add_edge (g : graph) (e : edge) : graph :=
  let '(u, v) := e in
  let adj1 := append_adj u v (adj g) in
  let outdeg1 := incr u 1 (outdeg g) in
  let indeg1 := incr v 1 (indeg g) in
  let indeg2 := incr u 0 indeg1 in
  let outdeg2 := incr v 0 outdeg1 in
  Graph adj1 indeg2 outdeg2.

(** The two k-mers read at offset [i]. *)
Definition kmer_pair (read : string) (k i : Z) : edge :=
  (slice read i (i + k), slice read (i + 1) (i + k + 1)).

(** [for i in range(len(read) - k): ...] *)
Definition add_read (k : Z) (g : graph) (read : string) : graph :=
  fold_left (fun g i => add_edge g (kmer_pair read k i))
            (py_range (Z.of_nat (String.length read) - k)) g.

Definition build_debruijn_graph (reads : list string) (k : Z) : graph :=
  fold_left (add_read k) reads empty_graph.

(** ** The unitig extractor (unitig.py) *)

(** A call of [find_unitigs] returns, raises [IndexError] (the only
    exception its operations can raise on these types), or is cut off when
    its [while] loop has used up the fuel. *)
Inductive outcome (A : Type) : Type :=
  | Ok (a : A)
  | IndexError
  | OutOfFuel.
Arguments Ok {A} a.
Arguments IndexError {A}.
Arguments OutOfFuel {A}.

(** Computations over the three dictionaries of the caller. *)
Definition M (A : Type) : Type := graph -> outcome A * graph.

Definition ret {A} (a : A) : M A := fun g => (Ok a, g).
Definition raise_IndexError {A} : M A := fun g => (IndexError, g).
Definition out_of_fuel {A} : M A := fun g => (OutOfFuel, g).
Definition bind {A B} (m : M A) (f : A -> M B) : M B :=
  fun g =>
    match m g with
    | (Ok a, g') => f a g'
    | (IndexError, g') => (IndexError, g')
    | (OutOfFuel, g') => (OutOfFuel, g')
    end.

Notation "x <- m ;; f" := (bind m (fun x => f))
  (at level 100, m at next level, right associativity).

(** [indeg[x]], [outdeg[x]], [adj[x]] on the [defaultdict]s. *)
Definition read_indeg (x : node) : M Z :=
  fun g => let '(n, d) := Dict.getitem 0 x (indeg g) in
           (Ok n, Graph (adj g) d (outdeg g)).
Definition read_outdeg (x : node) : M Z :=
  fun g => let '(n, d) := Dict.getitem 0 x (outdeg g) in
           (Ok n, Graph (adj g) (indeg g) d).
Definition read_adj (x : node) : M (list node) :=
  fun g => let '(l, a) := Dict.getitem [] x (adj g) in
           (Ok l, Graph a (indeg g) (outdeg g)).
Definition adj_keys : M (list node) :=
  fun g => (Ok (Dict.keys (adj g)), g).

(** [indeg[v] != 1 or outdeg[v] != 1 or (indeg[v] == 0 and outdeg[v] == 0)],
    with the short-circuit evaluation of [or] and [and]. *)
Definition is_anchor (v : node) : M bool :=
  i <- read_indeg v ;;
  if negb (i =? 1) then ret true else
  o <- read_outdeg v ;;
  if negb (o =? 1) then ret true else
  i' <- read_indeg v ;;
  if i' =? 0 then (o' <- read_outdeg v ;; ret (o' =? 0)) else ret false.

(** [anchors = [v for v in adj.keys() if ...]] *)
Fixpoint select_anchors (ks : list node) : M (list node) :=
  match ks with
  | [] => ret []
  | v :: ks' =>
      b <- is_anchor v ;;
      rest <- select_anchors ks' ;;
      ret (if b then v :: rest else rest)
  end.

(** The [while] loop, entered with [u], [path] and [visited_edges]; it
    returns their values at exit.  One unit of fuel pays for one evaluation
    of the loop condition. *)
Fixpoint while_loop (fuel : nat) (u : node) (path : list node)
    (visited : gset edge) : M (node * list node * gset edge) :=
  match fuel with
  | O => out_of_fuel
  | S fuel' =>
      i <- read_indeg u ;;
      if i =? 1 then
        o <- read_outdeg u ;;
        if o =? 1 then
          let path := path ++ [u] in
          l <- read_adj u ;;
          match l with
          | [] => raise_IndexError
          | next_w :: _ =>
              while_loop fuel' next_w path ({[ (u, next_w) ]} ∪ visited)
          end
        else ret (u, path, visited)
      else ret (u, path, visited)
  end.

(** [for w in adj[v]: ...] over the list [ws]. *)
Fixpoint for_neighbors (fuel : nat) (v : node) (ws : list node)
    (visited : gset edge) (unitigs : list (list node))
    : M (gset edge * list (list node)) :=
  match ws with
  | [] => ret (visited, unitigs)
  | w :: ws' =>
      let e : edge := (v, w) in
      if decide (e ∈ visited) then for_neighbors fuel v ws' visited unitigs
      else
        let path := [v] in
        let visited := {[ e ]} ∪ visited in
        r <- while_loop fuel w path visited ;;
        let '(u, path, visited) := r in
        let path := path ++ [u] in
        for_neighbors fuel v ws' visited (unitigs ++ [path])
  end.

(** [for v in anchors: ...] *)
Fixpoint for_anchors (fuel : nat) (anchors : list node)
    (visited : gset edge) (unitigs : list (list node))
    : M (gset edge * list (list node)) :=
  match anchors with
  | [] => ret (visited, unitigs)
  | v :: anchors' =>
      ws <- read_adj v ;;
      r <- for_neighbors fuel v ws visited unitigs ;;
      let '(visited, unitigs) := r in
      for_anchors fuel anchors' visited unitigs
  end.

Definition find_unitigs (fuel : nat) : M (list (list node)) :=
  ks <- adj_keys ;;
  anchors <- select_anchors ks ;;
  r <- for_anchors fuel anchors ∅ [] ;;
  let '(_, unitigs) := r in
  ret unitigs.

(** [sum(...)] of Python integers. *)
Definition Zsum (l : list Z) : Z := foldr Z.add 0 l.

(** [E = sum(len(vs) for vs in adj.values())], the edge count of main.py. *)
Definition edge_count (g : graph) : Z :=
  Zsum ((fun vs : list node => Z.of_nat (length vs)) <$> Dict.values (adj g)).

(** ** The edges behind a graph

    The builder is a fold of [add_edge] over the k-mer pairs of all reads.
    The properties of its result are stated against that list of edge
    occurrences. *)

Definition read_edges (k : Z) (read : string) : list edge :=
  kmer_pair read k <$> py_range (Z.of_nat (String.length read) - k).

Definition all_edges (reads : list string) (k : Z) : list edge :=
  concat (read_edges k <$> reads).

Definition graph_of (es : list edge) : graph := fold_left add_edge es empty_graph.

(** The destinations recorded for [x], in order, and the two degree counts. *)
Definition outs (es : list edge) (x : node) : list node :=
  (filter (fun e : edge => e.1 = x) es).*2.
Definition count_src (es : list edge) (x : node) : Z :=
  Z.of_nat (length (filter (fun e : edge => e.1 = x) es)).
Definition count_dst (es : list edge) (x : node) : Z :=
  Z.of_nat (length (filter (fun e : edge => e.2 = x) es)).

(** ** What the extractor computes

    [find_unitigs] reads the three dictionaries only through
    [defaultdict.__getitem__], so its result is a function of the values
    those reads return ([din], [dout], [succs]) and of the key order of
    [adj].  The functions below are the extractor over these values; the
    simulation lemmas relate them to the stateful code. *)

Definition din (g : graph) (x : node) : Z := Dict.peek 0 x (indeg g).
Definition dout (g : graph) (x : node) : Z := Dict.peek 0 x (outdeg g).
Definition succs (g : graph) (x : node) : list node := Dict.peek [] x (adj g).

(** The loop condition [indeg[u] == 1 and outdeg[u] == 1]. *)
Definition interior (g : graph) (u : node) : bool :=
  (din g u =? 1) && (dout g u =? 1).

(** The anchor condition of the list comprehension. *)
Definition anchor_cond (g : graph) (v : node) : bool :=
  negb (din g v =? 1) || negb (dout g v =? 1)
  || ((din g v =? 0) && (dout g v =? 0)).

Definition anchors (g : graph) : list node :=
  filter (fun v => anchor_cond g v = true) (Dict.keys (adj g)).

Fixpoint walk (g : graph) (fuel : nat) (u : node) (path : list node)
    (visited : gset edge) : outcome (node * list node * gset edge) :=
  match fuel with
  | O => OutOfFuel
  | S fuel' =>
      if interior g u then
        match succs g u with
        | [] => IndexError
        | next_w :: _ =>
            walk g fuel' next_w (path ++ [u]) ({[ (u, next_w) ]} ∪ visited)
        end
      else Ok (u, path, visited)
  end.

Fixpoint scan_neighbors (g : graph) (fuel : nat) (v : node) (ws : list node)
    (visited : gset edge) (unitigs : list (list node))
    : outcome (gset edge * list (list node)) :=
  match ws with
  | [] => Ok (visited, unitigs)
  | w :: ws' =>
      let e : edge := (v, w) in
      if decide (e ∈ visited) then scan_neighbors g fuel v ws' visited unitigs
      else
        match walk g fuel w [v] ({[ e ]} ∪ visited) with
        | Ok (u, path, visited) =>
            scan_neighbors g fuel v ws' visited (unitigs ++ [path ++ [u]])
        | IndexError => IndexError
        | OutOfFuel => OutOfFuel
        end
  end.

Fixpoint scan_anchors (g : graph) (fuel : nat) (vs : list node)
    (visited : gset edge) (unitigs : list (list node))
    : outcome (gset edge * list (list node)) :=
  match vs with
  | [] => Ok (visited, unitigs)
  | v :: vs' =>
      match scan_neighbors g fuel v (succs g v) visited unitigs with
      | Ok (visited, unitigs) => scan_anchors g fuel vs' visited unitigs
      | IndexError => IndexError
      | OutOfFuel => OutOfFuel
      end
  end.

Definition unitigs_of (g : graph) (fuel : nat) : outcome (list (list node)) :=
  match scan_anchors g fuel (anchors g) ∅ [] with
  | Ok (_, unitigs) => Ok unitigs
  | IndexError => IndexError
  | OutOfFuel => OutOfFuel
  end.

(** The consecutive (node, next node) pairs of a path, and of all paths. *)
Fixpoint pairs (p : list node) : list edge :=
  match p with
  | a :: (b :: _) as t => (a, b) :: pairs t
  | _ => []
  end.

Definition all_pairs (us : list (list node)) : list edge := concat (pairs <$> us).

(** [adj] records the edge [a -> b]. *)
Definition has_edge (g : graph) (a b : node) : Prop := b ∈ succs g a.

(** The nodes reachable from an anchor along recorded edges. *)
Inductive reach (g : graph) : node -> Prop :=
  | reach_anchor v : v ∈ anchors g -> reach g v
  | reach_step a b : reach g a -> has_edge g a b -> reach g b.

(** The nodes from which the loop runs into a node that passes the loop
    condition and has no successor. *)
Inductive dead_end (g : graph) : node -> Prop :=
  | dead_here u : interior g u = true -> succs g u = [] -> dead_end g u
  | dead_next u n l :
      interior g u = true -> succs g u = n :: l -> dead_end g n -> dead_end g u.

(** Two stores on which every [defaultdict] read returns the same value. *)
Definition same_view (g g' : graph) : Prop :=
  forall x, din g' x = din g x /\ dout g' x = dout g x /\ succs g' x = succs g x.

(** Every node of [adj] has both degree entries, and the nodes that pass
    the loop condition are keys of [adj]: on such a store no read inserts. *)
Definition closed (g : graph) : Prop :=
  (forall x, x ∈ Dict.keys (adj g) ->
     is_Some (Dict.get x (indeg g)) /\ is_Some (Dict.get x (outdeg g))) /\
  (forall x y, has_edge g x y ->
     is_Some (Dict.get y (indeg g)) /\ is_Some (Dict.get y (outdeg g))) /\
  (forall x, interior g x = true -> is_Some (Dict.get x (adj g))).

(** Both degree entries of [x] are present. *)
Definition known (g : graph) (x : node) : Prop :=
  is_Some (Dict.get x (indeg g)) /\ is_Some (Dict.get x (outdeg g)).

(** ** The trail of visited edges

    The invariants of the extractor are stated on the trail: the list of
    the edges passed to [visited_edges.add], in call order.  It is the
    list of pairs of the finished unitigs followed by the pairs of the
    path under construction. *)

(** [cur] is the node the [while] loop is at, if a path is under
    construction: every interior end of a trail edge other than [cur] has
    its successor edge in the trail. *)
Definition continued (g : graph) (L : list edge) (cur : option node) : Prop :=
  forall a b, (a, b) ∈ L -> interior g b = true ->
    (exists c, (b, c) ∈ L) \/ cur = Some b.

Record trail_ok (g : graph) (L : list edge) : Prop := {
  trail_nodup : NoDup L;
  trail_edges : forall a b, (a, b) ∈ L -> has_edge g a b;
  trail_pred : forall L1 a b L2,
    L = L1 ++ (a, b) :: L2 -> interior g a = true -> exists x, last L1 = Some (x, a);
  trail_reach : forall a b, (a, b) ∈ L -> reach g a
}.

(** Between two iterations of the [for] loops. *)
Record resting (g : graph) (unitigs : list (list node)) (visited : gset edge)
    : Prop := {
  rest_trail : trail_ok g (all_pairs unitigs);
  rest_visited : forall e, e ∈ visited <-> e ∈ all_pairs unitigs;
  rest_continued : continued g (all_pairs unitigs) None;
  rest_nodup : Forall (fun p => NoDup (tail p)) unitigs
}.

(** At the loop condition of the [while] loop, with [path = v :: q]. *)
Record walking (g : graph) (unitigs : list (list node)) (v : node)
    (q : list node) (u : node) (visited : gset edge) : Prop := {
  walk_trail : trail_ok g (all_pairs unitigs ++ pairs (v :: q ++ [u]));
  walk_visited :
    forall e, e ∈ visited <-> e ∈ all_pairs unitigs ++ pairs (v :: q ++ [u]);
  walk_continued :
    continued g (all_pairs unitigs ++ pairs (v :: q ++ [u])) (Some u);
  walk_interior : Forall (fun x => interior g x = true) q;
  walk_nodup : NoDup (q ++ [u]);
  walk_rest_nodup : Forall (fun p => NoDup (tail p)) unitigs
}.

(** Every visited edge out of a node that fails the loop condition leads
    to a node from which the loop returns. *)
Definition safe (g : graph) (visited : gset edge) : Prop :=
  forall a b, (a, b) ∈ visited -> interior g a = true \/ ~ dead_end g b.


(** ** Further notions for the builder *)

(** The number of occurrences of [x] in an adjacency list. *)
Definition count_in (x : node) (l : list node) : Z :=
  Z.of_nat (length (filter (fun y => y = x) l)).

(** The distinct elements of a list, in the order of their first
    occurrence: the key order of a dictionary filled in that order. *)
Definition first_seen {A} `{EqDecision A} (l : list A) : list A :=
  foldl (fun acc x => if decide (x ∈ acc) then acc else acc ++ [x]) [] l.

(** ** Further notions for the extractor *)

(** The nodes the [while] loop goes through, from the node it is entered
    with to the node at which it exits: each one but the last passes the
    loop condition and is followed by the first entry of its adjacency
    list, and the last one fails the loop condition. *)
Fixpoint follows (g : graph) (l : list node) : Prop :=
  match l with
  | [] => False
  | a :: t =>
      match t with
      | [] => interior g a = false
      | b :: _ => interior g a = true /\ head (succs g a) = Some b /\ follows g t
      end
  end.

(** A unitig: an anchor, one of its neighbors, and the nodes the loop
    goes through from there. *)
Definition unitig_shape (g : graph) (p : list node) : Prop :=
  exists v w l, p = v :: w :: l /\ v ∈ anchors g /\ w ∈ succs g v /\
                follows g (w :: l).

(** The edges out of the anchors, in the order the two [for] loops meet
    them. *)
Definition anchor_edges (g : graph) (vs : list node) : list edge :=
  concat ((fun v => pair v <$> succs g v) <$> vs).

(** [d'] is [d] followed by entries that hold the default value. *)
Definition extends {V} (dflt : V) (d d' : dict V) : Prop :=
  exists l, d' = d ++ l /\ Forall (fun kv => kv.2 = dflt) l.

Definition graph_extends (g g' : graph) : Prop :=
  extends [] (adj g) (adj g') /\ extends 0 (indeg g) (indeg g') /\
  extends 0 (outdeg g) (outdeg g').

(** Between two iterations of the [for] loops, on any graph: [T] is the
    list of the anchor edges met so far. *)
Record tally (g : graph) (unitigs : list (list node)) (visited : gset edge)
    (T : list edge) : Prop := {
  tally_shape : Forall (unitig_shape g) unitigs;
  tally_starts : (fun p => head (pairs p)) <$> unitigs = Some <$> first_seen T;
  tally_in : forall e, e ∈ first_seen T -> e ∈ visited;
  tally_out : forall e : edge,
    e ∈ visited -> interior g e.1 = true \/ e ∈ first_seen T
}.

(** A computation that only appends default entries to the store. *)
Definition grows {A} (m : M A) : Prop := forall g, graph_extends g (m g).2.

(** ** Read sampling (debruijn.py) *)

(** [generate_reads] returns the list of reads or raises the [ValueError]
    of [random.randint]. *)
Inductive sampled : Type :=
  | Sampled (reads : list string)
  | ValueError.

(** [random.randint(a, b)]: an integer between [a] and [b], both included,
    here the one that the raw draw [r] selects; [None] is the [ValueError]
    raised on an empty range. *)
Definition randint (a b r : Z) : option Z :=
  if a <=? b then Some (a + r mod (b - a + 1)) else None.

(** [for _ in range(num_reads): ...], with [n] iterations left; [rnd i] is
    the raw draw of iteration [i]. *)
Fixpoint sample_loop (rnd : nat -> Z) (genome : string) (read_len : Z)
    (i n : nat) (reads : list string) : sampled :=
  match n with
  | O => Sampled reads
  | S n' =>
      match randint 0 (Z.of_nat (String.length genome) - read_len) (rnd i) with
      | None => ValueError
      | Some start =>
          sample_loop rnd genome read_len (S i) n'
            (reads ++ [slice genome start (start + read_len)])
      end
  end.

Definition generate_reads (rnd : nat -> Z) (genome : string)
    (read_len num_reads : Z) : sampled :=
  sample_loop rnd genome read_len 0 (Z.to_nat num_reads) [].

(** The nodes from which the [while] loop never exits: [w] lies in a set
    of nodes that pass the loop condition, each with a non-empty adjacency
    list whose first entry is in the set again. *)
Definition trapped (g : graph) (w : node) : Prop :=
  exists S : node -> Prop,
    S w /\
    forall u, S u ->
      interior g u = true /\ exists n l, succs g u = n :: l /\ S n.

(** Every visited edge out of a node that fails the loop condition leads
    to a node outside [stuck]. *)
Definition safe_for (g : graph) (stuck : node -> Prop) (visited : gset edge)
    : Prop :=
  forall a b, (a, b) ∈ visited -> interior g a = true \/ ~ stuck b.

(** ** Maximum subarray (Divide_and_Conquer_Problem/div_n_con.py)

    The three functions on a Python list of integers.  A running maximum
    starts as [-float('inf')]: a [num] is that value or an integer. *)

Inductive num : Type :=
  | NegInf
  | Fin (z : Z).

(** [a > m] for an integer [a]. *)
Definition exceeds (a : Z) (m : num) : bool :=
  match m with NegInf => true | Fin z => z <? a end.

(** [a >= b] *)
Definition num_ge (a b : num) : bool :=
  match a, b with
  | _, NegInf => true
  | NegInf, Fin _ => false
  | Fin x, Fin y => y <=? x
  end.

(** Whether [float(x)] succeeds: the conversion of an integer raises
    [OverflowError] when the integer, rounded to the nearest double, lies
    beyond the largest one. *)
Definition fits_float (x : Z) : bool := Z.abs x <? 2 ^ 1024 - 2 ^ 970.

(** [a + b]: two integers add exactly; an integer added to [-inf] is first
    converted to a float, and [None] is the [OverflowError] of that
    conversion. *)
Definition num_add (a b : num) : option num :=
  match a, b with
  | Fin x, Fin y => Some (Fin (x + y))
  | NegInf, NegInf => Some NegInf
  | Fin x, NegInf => if fits_float x then Some NegInf else None
  | NegInf, Fin y => if fits_float y then Some NegInf else None
  end.

(** What [max_crossing_sum] and [divide_and_conquer] raise: the
    [IndexError] of [arr[i]] and the [OverflowError] of [num_add]. *)
Inductive exc : Type :=
  | IndexErr
  | OverflowErr.

(** A call returns, raises, or recurses deeper than its fuel allows
    ([RecursionError]). *)
Inductive call_result (A : Type) : Type :=
  | Returned (a : A)
  | Raised (e : exc)
  | TooDeep.
Arguments Returned {A} a.
Arguments Raised {A} e.
Arguments TooDeep {A}.

(** [arr[i]] of a list: a negative index counts from the end; [None] is
    [IndexError]. *)
Definition py_getitem (arr : list Z) (i : Z) : option Z :=
  let n := Z.of_nat (length arr) in
  if (0 <=? i) && (i <? n) then arr !! Z.to_nat i
  else if (- n <=? i) && (i <? 0) then arr !! Z.to_nat (i + n)
  else None.

(** [range(lo, hi)] and [range(start, stop, -1)]. *)
Definition py_range2 (lo hi : Z) : list Z :=
  (fun d => lo + Z.of_nat d) <$> seq 0 (Z.to_nat (hi - lo)).
Definition py_range_down (start stop : Z) : list Z :=
  (fun d => start - Z.of_nat d) <$> seq 0 (Z.to_nat (start - stop)).

(** A [for] loop whose body may raise. *)
Fixpoint for_each {S I} (body : S -> I -> option S) (l : list I) (s : S)
    : option S :=
  match l with
  | [] => Some s
  | i :: l' =>
      match body s i with
      | Some s' => for_each body l' s'
      | None => None
      end
  end.

(** The body of the inner loop of [brute_force_max_subarray]; the state is
    [(current_sum, max_sum, left, right)] ([left] and [right] are
    constructors here, hence the underscores). *)
Definition brute_force_step (arr : list Z) (i : Z) (st : Z * num * Z * Z)
    (j : Z) : option (Z * num * Z * Z) :=
  let '(current_sum, max_sum, left_, right_) := st in
  match py_getitem arr j with
  | None => None
  | Some a =>
      let current_sum := current_sum + a in
      if exceeds current_sum max_sum
      then Some (current_sum, Fin current_sum, i, j)
      else Some (current_sum, max_sum, left_, right_)
  end.

(** The body of the outer loop; the state is [(max_sum, left, right)]. *)
Definition brute_force_row (arr : list Z) (st : num * Z * Z) (i : Z)
    : option (num * Z * Z) :=
  let '(max_sum, left_, right_) := st in
  match for_each (brute_force_step arr i)
          (py_range2 i (Z.of_nat (length arr))) (0, max_sum, left_, right_) with
  | None => None
  | Some (_, max_sum, left_, right_) => Some (max_sum, left_, right_)
  end.

Definition brute_force_max_subarray (arr : list Z) : option (num * Z * Z) :=
  for_each (brute_force_row arr) (py_range (Z.of_nat (length arr))) (NegInf, 0, 0).

(** The body of either loop of [max_crossing_sum]; the state is
    [(total, best_sum, best_index)]. *)
Definition crossing_step (arr : list Z) (st : Z * num * Z) (i : Z)
    : option (Z * num * Z) :=
  let '(total, best, at_) := st in
  match py_getitem arr i with
  | None => None
  | Some a =>
      let total := total + a in
      if exceeds total best then Some (total, Fin total, i)
      else Some (total, best, at_)
  end.

Definition max_crossing_sum (arr : list Z) (low mid high : Z)
    : call_result (num * Z * Z) :=
  match for_each (crossing_step arr) (py_range_down mid (low - 1)) (0, NegInf, mid) with
  | None => Raised IndexErr
  | Some (_, left_sum, max_left) =>
      match for_each (crossing_step arr) (py_range2 (mid + 1) (high + 1))
              (0, NegInf, mid) with
      | None => Raised IndexErr
      | Some (_, right_sum, max_right) =>
          match num_add left_sum right_sum with
          | None => Raised OverflowErr
          | Some cross_sum => Returned (cross_sum, max_left, max_right)
          end
      end
  end.

(** [divide_and_conquer]; the fuel bounds the depth of the recursion. *)
Fixpoint divide_and_conquer (fuel : nat) (arr : list Z) (low high : Z)
    : call_result (num * Z * Z) :=
  match fuel with
  | O => TooDeep
  | S fuel' =>
      if low =? high then
        match py_getitem arr low with
        | Some a => Returned (Fin a, low, high)
        | None => Raised IndexErr
        end
      else
        let mid := (low + high) / 2 in
        match divide_and_conquer fuel' arr low mid with
        | Returned (left_sum, left_low, left_high) =>
            match divide_and_conquer fuel' arr (mid + 1) high with
            | Returned (right_sum, right_low, right_high) =>
                match max_crossing_sum arr low mid high with
                | Returned (cross_sum, cross_low, cross_high) =>
                    if num_ge left_sum right_sum && num_ge left_sum cross_sum
                    then Returned (left_sum, left_low, left_high)
                    else if num_ge right_sum left_sum && num_ge right_sum cross_sum
                    then Returned (right_sum, right_low, right_high)
                    else Returned (cross_sum, cross_low, cross_high)
                | Raised e => Raised e
                | TooDeep => TooDeep
                end
            | Raised e => Raised e
            | TooDeep => TooDeep
            end
        | Raised e => Raised e
        | TooDeep => TooDeep
        end
  end.

(** [sum(arr[i:j+1])] for 0 <= i <= j < len(arr). *)
Definition seg_sum (arr : list Z) (i j : Z) : Z :=
  Zsum (take (Z.to_nat (j + 1 - i)) (drop (Z.to_nat i) arr)).

(** [(m, l, r)] is the running maximum over the index pairs in [D]: [-inf]
    when [D] is empty, else the sum of a segment of [D] that no segment of
    [D] exceeds. *)
Definition best_of (arr : list Z) (D : Z -> Z -> Prop) (m : num) (l r : Z)
    : Prop :=
  match m with
  | NegInf => forall i j, ~ D i j
  | Fin s =>
      D l r /\ s = seg_sum arr l r /\ forall i j, D i j -> seg_sum arr i j <= s
  end.

(** [res] is a maximum segment of [arr[low..high]]: its sum, and its two
    end indices. *)
Definition max_segment (arr : list Z) (low high : Z) (res : num * Z * Z)
    : Prop :=
  exists s l r,
    res = (Fin s, l, r) /\ low <= l <= r /\ r <= high /\
    s = seg_sum arr l r /\
    forall i j, low <= i <= j -> j <= high -> seg_sum arr i j <= s.

(** The index pairs the two loops of [brute_force_max_subarray] have gone
    through when the outer loop is at [i] and the inner loop at [J]. *)
Definition seen_pairs (n i J : Z) : Z -> Z -> Prop :=
  fun i' j' => 0 <= i' <= j' /\ j' < n /\ (i' < i \/ (i' = i /\ j' < J)).

(** The nodes from which the [while] loop ends, by leaving the loop or by
    raising: the chain of first successors reaches a node that fails the
    loop condition or one that has no successor. *)
Inductive halts (g : graph) : node -> Prop :=
  | halts_exit u : interior g u = false -> halts g u
  | halts_raise u : interior g u = true -> succs g u = [] -> halts g u
  | halts_next u n l :
      interior g u = true -> succs g u = n :: l -> halts g n -> halts g u.

(** * The scenarios of the specification, evaluated *)

Example build_two_reads :
  build_debruijn_graph ["AAAAC"; "AAACG"]%string 3 =
  Graph [("AAA", ["AAA"; "AAC"; "AAC"]); ("AAC", ["ACG"])]
        [("AAA", 1); ("AAC", 2); ("ACG", 1)]
        [("AAA", 3); ("AAC", 1); ("ACG", 0)]%string.
Proof. reflexivity. Qed.

Example unitigs_two_reads :
  (find_unitigs 4 (build_debruijn_graph ["AAAAC"; "AAACG"]%string 3)).1 =
  Ok [["AAA"; "AAA"]; ["AAA"; "AAC"]; ["AAC"; "ACG"]]%string.
Proof. reflexivity. Qed.

Example build_read_of_length_k :
  build_debruijn_graph ["ACG"%string] 3 = empty_graph /\
  (find_unitigs 0 empty_graph).1 = Ok [].
Proof. split; reflexivity. Qed.

Example build_negative_k :
  build_debruijn_graph ["AB"%string] (-1) =
  Graph [("A", [""]); ("", [""; ""])] [("", 3); ("A", 0)] [("A", 1); ("", 2)]%string.
Proof. reflexivity. Qed.

Example unitigs_cycle_with_tail :
  (find_unitigs 5 (build_debruijn_graph ["ABCDEB"%string] 1)).1 =
  Ok [["A"; "B"]; ["B"; "C"; "D"; "E"; "B"]]%string.
Proof. reflexivity. Qed.

Example unitigs_out_of_fuel :
  (find_unitigs 3 (build_debruijn_graph ["ABCDEB"%string] 1)).1 = OutOfFuel.
Proof. reflexivity. Qed.

(** Indegree 1 and outdegree 1 at every node, and an edge into the cycle
    that the degrees do not count: the loop does not end. *)
Example inconsistent_degrees_loop :
  (find_unitigs 50
     (Graph [("S", ["A"]); ("A", ["B"]); ("B", ["A"])]
            [("S", 0); ("A", 1); ("B", 1)]
            [("S", 1); ("A", 1); ("B", 1)])%string).1 = OutOfFuel.
Proof. vm_compute. reflexivity. Qed.

(** A loop of [max_crossing_sum] that runs over nothing leaves [-inf]; the
    sum with it is [-inf], or [OverflowError] for an integer beyond the
    floats. *)
Example crossing_empty_loop :
  max_crossing_sum [5] 0 0 0 = Returned (NegInf, 0, 0) /\
  max_crossing_sum [2 ^ 1024 - 2 ^ 970 - 1] 0 0 0 = Returned (NegInf, 0, 0) /\
  max_crossing_sum [2 ^ 1024 - 2 ^ 970] 0 0 0 = Raised OverflowErr /\
  max_crossing_sum [- 2 ^ 1024] 0 0 0 = Raised OverflowErr.
Proof. vm_compute. done. Qed.

(** * Properties of dictionaries *)

Section dict_facts.
Context {V : Type}.
Implicit Types (d : dict V) (k x : node) (v : V).

Lemma get_set k v d x :
  Dict.get x (Dict.set k v d) = if decide (k = x) then Some v else Dict.get x d.
Proof.
  induction d as [|[k' v'] d IH]; simpl.
  - repeat case_decide; congruence.
  - destruct (decide (k' = k)) as [->|Hk]; simpl.
    + repeat case_decide; congruence.
    + rewrite IH. repeat case_decide; congruence.
Qed.

Lemma elem_of_keys d x : x ∈ Dict.keys d <-> is_Some (Dict.get x d).
Proof.
  unfold Dict.keys. induction d as [|[k' v'] d IH]; simpl.
  - split; [intros H; inversion H | intros [? ?]; discriminate].
  - rewrite elem_of_cons, IH. case_decide; split; eauto.
    intros [?|?]; [congruence | done].
Qed.

Lemma peek_getitem dflt k d : (Dict.getitem dflt k d).1 = Dict.peek dflt k d.
Proof. unfold Dict.getitem, Dict.peek. by destruct (Dict.get k d). Qed.

Lemma getitem_present dflt k d v :
  Dict.get k d = Some v -> Dict.getitem dflt k d = (v, d).
Proof. unfold Dict.getitem. by intros ->. Qed.

Lemma get_getitem dflt k d x :
  Dict.get x (Dict.getitem dflt k d).2 =
    match Dict.get x d with
    | Some v => Some v
    | None => if decide (k = x) then Some dflt else None
    end.
Proof.
  unfold Dict.getitem. destruct (Dict.get k d) as [v|] eqn:Hk; simpl.
  - destruct (Dict.get x d) eqn:Hx; [done|]. case_decide; congruence.
  - rewrite get_set. case_decide; subst; [by rewrite Hk|by destruct (Dict.get x d)].
Qed.

Lemma peek_getitem_other dflt k d x :
  Dict.peek dflt x (Dict.getitem dflt k d).2 = Dict.peek dflt x d.
Proof.
  unfold Dict.peek. rewrite get_getitem.
  destruct (Dict.get x d); [done|]. by case_decide.
Qed.

Lemma keys_getitem_present dflt k d :
  is_Some (Dict.get k d) -> (Dict.getitem dflt k d).2 = d.
Proof. intros [v Hv]. by rewrite (getitem_present _ _ _ _ Hv). Qed.
End dict_facts.

(** Storing [v] under [k] moves a weighted sum of the values by the
    difference of the weights. *)
Lemma Zsum_set {V} (w : V -> Z) (k : node) (v : V) (d : dict V) :
  Zsum (w <$> Dict.values (Dict.set k v d)) =
  Zsum (w <$> Dict.values d) + w v
  - match Dict.get k d with Some o => w o | None => 0 end.
Proof.
  unfold Dict.values. induction d as [|[k' v'] d IH]; csimpl; [lia|].
  case_decide; csimpl in *; lia.
Qed.

(** * Properties of the graph builder *)

Lemma get_append_adj u v a x :
  Dict.get x (append_adj u v a) =
    if decide (u = x) then Some (Dict.peek [] u a ++ [v]) else Dict.get x a.
Proof.
  unfold append_adj.
  destruct (Dict.getitem [] u a) as [l a1] eqn:E.
  pose proof (peek_getitem [] u a) as Hl. pose proof (get_getitem [] u a x) as Ha.
  rewrite E in Hl, Ha. simpl in *. rewrite get_set, Ha, Hl.
  case_decide; [done|]. by destruct (Dict.get x a).
Qed.

Lemma get_incr y c d x :
  Dict.get x (incr y c d) =
    if decide (y = x) then Some (Dict.peek 0 y d + c) else Dict.get x d.
Proof.
  unfold incr.
  destruct (Dict.getitem 0 y d) as [n d1] eqn:E.
  pose proof (peek_getitem 0 y d) as Hl. pose proof (get_getitem 0 y d x) as Ha.
  rewrite E in Hl, Ha. simpl in *. rewrite get_set, Ha, Hl.
  case_decide; [done|]. by destruct (Dict.get x d).
Qed.

Lemma peek_incr y c d x :
  Dict.peek 0 x (incr y c d) =
    if decide (y = x) then Dict.peek 0 y d + c else Dict.peek 0 x d.
Proof. unfold Dict.peek at 1. rewrite get_incr. by case_decide. Qed.

Lemma Zsum_incr y c d :
  Zsum (Dict.values (incr y c d)) = Zsum (Dict.values d) + c.
Proof.
  pose proof (Zsum_set id) as H. setoid_rewrite list_fmap_id in H.
  unfold incr, Dict.getitem.
  destruct (Dict.get y d) as [n|] eqn:E; rewrite !H; rewrite ?get_set, ?E; simpl.
  - lia.
  - rewrite decide_True by done. unfold id. lia.
Qed.

Lemma edge_count_append u v a :
  Zsum ((fun vs : list node => Z.of_nat (length vs)) <$> Dict.values (append_adj u v a))
  = Zsum ((fun vs : list node => Z.of_nat (length vs)) <$> Dict.values a) + 1.
Proof.
  unfold append_adj, Dict.getitem.
  destruct (Dict.get u a) as [l|] eqn:E; rewrite !Zsum_set; rewrite ?get_set, ?E; simpl.
  - rewrite length_app. simpl. lia.
  - rewrite decide_True by done. simpl. lia.
Qed.

Lemma fold_left_fmap {A B C} (f : A -> B -> A) (h : C -> B) (l : list C) (a : A) :
  fold_left f (h <$> l) a = fold_left (fun a i => f a (h i)) l a.
Proof. revert a. induction l; intros; csimpl; auto. Qed.

Lemma graph_of_snoc es e : graph_of (es ++ [e]) = add_edge (graph_of es) e.
Proof. unfold graph_of. by rewrite fold_left_app. Qed.

Lemma add_read_edges k g read :
  add_read k g read = fold_left add_edge (read_edges k read) g.
Proof. unfold add_read, read_edges. by rewrite fold_left_fmap. Qed.

Lemma fold_add_read k reads g :
  fold_left (add_read k) reads g = fold_left add_edge (all_edges reads k) g.
Proof.
  unfold all_edges. revert g. induction reads as [|r reads IH]; intros g; csimpl; [done|].
  by rewrite fold_left_app, IH, add_read_edges.
Qed.

(** The builder is the fold of [add_edge] over the k-mer pairs of the reads. *)
Lemma build_graph_of reads k :
  build_debruijn_graph reads k = graph_of (all_edges reads k).
Proof. apply fold_add_read. Qed.

Section edge_lists.
Implicit Types (es : list edge) (x u v : node).

Lemma outs_snoc es u v x :
  outs (es ++ [(u, v)]) x = outs es x ++ (if decide (u = x) then [v] else []).
Proof.
  unfold outs. rewrite filter_app, fmap_app. f_equal.
  rewrite filter_cons, filter_nil. simpl. by case_decide.
Qed.

Lemma count_src_snoc es u v x :
  count_src (es ++ [(u, v)]) x = count_src es x + (if decide (u = x) then 1 else 0).
Proof.
  unfold count_src. rewrite filter_app, length_app, filter_cons, filter_nil. simpl.
  case_decide; simpl; lia.
Qed.

Lemma count_dst_snoc es u v x :
  count_dst (es ++ [(u, v)]) x = count_dst es x + (if decide (v = x) then 1 else 0).
Proof.
  unfold count_dst. rewrite filter_app, length_app, filter_cons, filter_nil. simpl.
  case_decide; simpl; lia.
Qed.

Lemma filter_src_nil es x : x ∉ es.*1 -> filter (fun e : edge => e.1 = x) es = [].
Proof.
  induction es as [|[a b] es IH]; intros Hx; [done|].
  rewrite filter_cons. csimpl in Hx. apply not_elem_of_cons in Hx as [Hne Hx].
  rewrite decide_False by done. by apply IH.
Qed.

Lemma filter_dst_nil es x : x ∉ es.*2 -> filter (fun e : edge => e.2 = x) es = [].
Proof.
  induction es as [|[a b] es IH]; intros Hx; [done|].
  rewrite filter_cons. csimpl in Hx. apply not_elem_of_cons in Hx as [Hne Hx].
  rewrite decide_False by done. by apply IH.
Qed.

Lemma outs_nil es x : x ∉ es.*1 -> outs es x = [].
Proof. intros. unfold outs. by rewrite filter_src_nil. Qed.

Lemma count_src_nil es x : x ∉ es.*1 -> count_src es x = 0.
Proof. intros. unfold count_src. by rewrite filter_src_nil. Qed.

Lemma count_dst_nil es x : x ∉ es.*2 -> count_dst es x = 0.
Proof. intros. unfold count_dst. by rewrite filter_dst_nil. Qed.

Lemma elem_of_outs es x y : y ∈ outs es x <-> (x, y) ∈ es.
Proof.
  unfold outs. rewrite list_elem_of_fmap. split.
  - intros [[a b] [-> [Ha Hin]%list_elem_of_filter]]. simpl in *. by subst.
  - intros H. exists (x, y). split; [done|]. by apply list_elem_of_filter.
Qed.

Lemma length_outs es x : Z.of_nat (length (outs es x)) = count_src es x.
Proof. unfold outs, count_src. by rewrite length_fmap. Qed.

(** What the three dictionaries of [graph_of es] hold. *)
Lemma get_adj_graph_of es x :
  Dict.get x (adj (graph_of es)) =
    if decide (x ∈ es.*1) then Some (outs es x) else None.
Proof.
  revert x. induction es as [|[u v] es IH] using rev_ind; intros x.
  - done.
  - rewrite graph_of_snoc. simpl. rewrite get_append_adj, outs_snoc, fmap_app.
    assert (Dict.peek [] u (adj (graph_of es)) = outs es u) as ->.
    { unfold Dict.peek. rewrite IH. case_decide; [done|]. by rewrite outs_nil. }
    rewrite IH. simpl.
    repeat case_decide; simplify_eq; rewrite ?app_nil_r; try done;
      exfalso; set_solver.
Qed.

Lemma get_outdeg_graph_of es x :
  Dict.get x (outdeg (graph_of es)) =
    if decide (x ∈ es.*1 \/ x ∈ es.*2) then Some (count_src es x) else None.
Proof.
  revert x. induction es as [|[u v] es IH] using rev_ind; intros x.
  - done.
  - rewrite graph_of_snoc. simpl. rewrite !get_incr, count_src_snoc, !fmap_app.
    rewrite peek_incr. unfold Dict.peek. rewrite !IH. simpl.
    repeat case_decide; simplify_eq; rewrite ?count_src_nil by set_solver;
      try done; try (f_equal; lia); exfalso; set_solver.
Qed.

Lemma get_indeg_graph_of es x :
  Dict.get x (indeg (graph_of es)) =
    if decide (x ∈ es.*1 \/ x ∈ es.*2) then Some (count_dst es x) else None.
Proof.
  revert x. induction es as [|[u v] es IH] using rev_ind; intros x.
  - done.
  - rewrite graph_of_snoc. simpl. rewrite !get_incr, count_dst_snoc, !fmap_app.
    rewrite peek_incr. unfold Dict.peek. rewrite !IH. simpl.
    repeat case_decide; simplify_eq; rewrite ?count_dst_nil by set_solver;
      try done; try (f_equal; lia); exfalso; set_solver.
Qed.
End edge_lists.

Section graph_of_facts.
Implicit Types (es : list edge) (x u v : node).

Lemma succs_graph_of es x : succs (graph_of es) x = outs es x.
Proof.
  unfold succs, Dict.peek. rewrite get_adj_graph_of.
  case_decide; [done|]. by rewrite outs_nil.
Qed.

Lemma dout_graph_of es x : dout (graph_of es) x = count_src es x.
Proof.
  unfold dout, Dict.peek. rewrite get_outdeg_graph_of.
  case_decide; [done|]. rewrite count_src_nil; [done|]. tauto.
Qed.

Lemma din_graph_of es x : din (graph_of es) x = count_dst es x.
Proof.
  unfold din, Dict.peek. rewrite get_indeg_graph_of.
  case_decide; [done|]. rewrite count_dst_nil; [done|]. tauto.
Qed.

Lemma keys_graph_of es x : x ∈ Dict.keys (adj (graph_of es)) <-> x ∈ es.*1.
Proof.
  rewrite elem_of_keys, get_adj_graph_of. by case_decide; split; try done.
Qed.

Lemma has_edge_graph_of es a b : has_edge (graph_of es) a b <-> (a, b) ∈ es.
Proof. unfold has_edge. by rewrite succs_graph_of, elem_of_outs. Qed.

Lemma elem_of_edge_fst es a b : (a, b) ∈ es -> a ∈ es.*1.
Proof. intros H. apply list_elem_of_fmap. by exists (a, b). Qed.

Lemma elem_of_edge_snd es a b : (a, b) ∈ es -> b ∈ es.*2.
Proof. intros H. apply list_elem_of_fmap. by exists (a, b). Qed.

Lemma count_src_pos es x : x ∈ es.*1 <-> 0 < count_src es x.
Proof.
  split.
  - intros ([a b] & -> & Hin)%list_elem_of_fmap. unfold count_src.
    assert ((a, b) ∈ filter (fun e : edge => e.1 = (a, b).1) es) as Hf
      by by apply list_elem_of_filter.
    destruct (filter _ es); [by apply elem_of_nil in Hf | simpl; lia].
  - intros H. destruct (decide (x ∈ es.*1)); [done|].
    rewrite count_src_nil in H by done. lia.
Qed.

Lemma degrees_present es x :
  x ∈ es.*1 \/ x ∈ es.*2 ->
  is_Some (Dict.get x (indeg (graph_of es))) /\
  is_Some (Dict.get x (outdeg (graph_of es))).
Proof.
  intros H. rewrite get_indeg_graph_of, get_outdeg_graph_of.
  rewrite !decide_True by done. split; by eexists.
Qed.

Lemma closed_graph_of es : closed (graph_of es).
Proof.
  unfold closed. split; [|split].
  - intros x H%keys_graph_of. apply degrees_present. by left.
  - intros x y H%has_edge_graph_of%elem_of_edge_snd. apply degrees_present. by right.
  - intros x H. unfold interior in H. apply andb_true_iff in H as [_ H%Z.eqb_eq].
    rewrite dout_graph_of in H. rewrite get_adj_graph_of.
    rewrite decide_True; [by eexists|]. apply count_src_pos. lia.
Qed.

(** Each [add_edge] adds one to each of the three totals. *)
Lemma totals_graph_of es :
  Zsum (Dict.values (outdeg (graph_of es))) = Z.of_nat (length es) /\
  Zsum (Dict.values (indeg (graph_of es))) = Z.of_nat (length es) /\
  edge_count (graph_of es) = Z.of_nat (length es).
Proof.
  induction es as [|[u v] es (IHo & IHi & IHe)] using rev_ind; [done|].
  rewrite graph_of_snoc, length_app. unfold edge_count in *. simpl.
  rewrite !Zsum_incr, edge_count_append. lia.
Qed.
End graph_of_facts.

Lemma length_py_range n : Z.of_nat (length (py_range n)) = Z.max 0 n.
Proof. unfold py_range. rewrite length_fmap, length_seq. lia. Qed.

Lemma py_range_nonpos n : n <= 0 -> py_range n = [].
Proof. intros H. unfold py_range. by replace (Z.to_nat n) with 0%nat by lia. Qed.

Lemma length_all_edges reads k :
  Z.of_nat (length (all_edges reads k)) =
  Zsum ((fun r => Z.max 0 (Z.of_nat (String.length r) - k)) <$> reads).
Proof.
  unfold all_edges. induction reads as [|r reads IH]; csimpl; [done|].
  rewrite length_app, Nat2Z.inj_add, IH. unfold read_edges.
  by rewrite length_fmap, length_py_range.
Qed.

Lemma add_read_short k g read :
  Z.of_nat (String.length read) <= k -> add_read k g read = g.
Proof. intros H. unfold add_read. by rewrite py_range_nonpos by lia. Qed.

Lemma Zsum_max_zero (f : string -> Z) (reads : list string) :
  Zsum ((fun r => Z.max 0 (f r)) <$> reads) = 0 ->
  forall r, r ∈ reads -> f r <= 0.
Proof.
  induction reads as [|r' reads IH]; csimpl; intros Hs r Hr.
  - by apply elem_of_nil in Hr.
  - assert (0 <= Zsum ((fun r => Z.max 0 (f r)) <$> reads)).
    { clear. induction reads; csimpl; lia. }
    apply elem_of_cons in Hr as [->|Hr]; [lia|]. apply IH; [lia|done].
Qed.

(** ** The builder's counts and degree entries *)

(** C2: for k > 0 the edge count (the sum of the lengths of all adjacency
    lists) of the built graph is the sum over the reads of
    max(0, len(read) - k), and a read of length at most k contributes
    nothing: the graph is the one built without it. *)
Theorem edge_count_build (reads : list string) (k : Z) :
  0 < k ->
  edge_count (build_debruijn_graph reads k) =
    Zsum ((fun r => Z.max 0 (Z.of_nat (String.length r) - k)) <$> reads) /\
  (forall rs1 r rs2,
     reads = rs1 ++ r :: rs2 -> Z.of_nat (String.length r) <= k ->
     build_debruijn_graph reads k = build_debruijn_graph (rs1 ++ rs2) k).
Proof.
  intros _. split.
  - rewrite build_graph_of, <- length_all_edges. apply totals_graph_of.
  - intros rs1 r rs2 -> Hr. unfold build_debruijn_graph.
    rewrite !fold_left_app. simpl. by rewrite add_read_short.
Qed.

Lemma edge_count_build_witness :
  edge_count (build_debruijn_graph ["AAAAC"; "AC"; "AAACG"]%string 3) = 4 /\
  build_debruijn_graph ["AAAAC"; "AC"; "AAACG"]%string 3 =
    build_debruijn_graph ["AAAAC"; "AAACG"]%string 3.
Proof.
  destruct (edge_count_build ["AAAAC"; "AC"; "AAACG"]%string 3) as [Hc Hs]; [lia|].
  split.
  - exact Hc.
  - apply (Hs ["AAAAC"%string] "AC"%string ["AAACG"%string]); [reflexivity | simpl; lia].
Defined.

(** C3 as stated fails: with k = 0 the read "A" records the edge from the
    empty k-mer to itself. *)
Lemma nonpositive_k_builds_edges :
  ~ (forall (reads : list string) (k : Z),
       k <= 0 \/ (forall r, r ∈ reads -> Z.of_nat (String.length r) < k) ->
       build_debruijn_graph reads k = empty_graph).
Proof.
  intros H. specialize (H ["A"%string] 0 (or_introl (Z.le_refl 0))).
  vm_compute in H. discriminate H.
Qed.

(** C3, amended: the built graph is empty exactly when k is at least the
    length of every read. *)
Theorem build_empty_iff (reads : list string) (k : Z) :
  (forall r, r ∈ reads -> Z.of_nat (String.length r) <= k) <->
  build_debruijn_graph reads k = empty_graph.
Proof.
  split.
  - intros H. unfold build_debruijn_graph.
    induction reads as [|r reads IH]; [done|]. simpl.
    rewrite add_read_short by (apply H; left). apply IH.
    intros r' Hr'. apply H. by right.
  - intros H r Hr.
    pose proof (totals_graph_of (all_edges reads k)) as (_ & _ & He).
    rewrite <- build_graph_of, H, length_all_edges in He.
    pose proof (Zsum_max_zero (fun r => Z.of_nat (String.length r) - k) reads
                  (eq_sym He) r Hr) as Hle.
    simpl in Hle. lia.
Qed.

(** C4: the outdegree values and the indegree values have the same sum,
    which is the number of edge occurrences recorded in the adjacency map. *)
Theorem degree_sums (reads : list string) (k : Z) :
  let g := build_debruijn_graph reads k in
  Zsum (Dict.values (outdeg g)) = Zsum (Dict.values (indeg g)) /\
  Zsum (Dict.values (indeg g)) = edge_count g.
Proof.
  simpl. rewrite build_graph_of.
  pose proof (totals_graph_of (all_edges reads k)) as (Ho & Hi & He).
  split; congruence.
Qed.

(** C5: a node that occurs in a recorded edge, as a key of the adjacency
    map or in an adjacency list, has an entry in both degree maps; the
    indegree entry is 0 when it is in no adjacency list and the outdegree
    entry is 0 when it is not a key of the adjacency map. *)
Theorem degree_entries (reads : list string) (k : Z) (x : node) :
  let g := build_debruijn_graph reads k in
  x ∈ Dict.keys (adj g) \/ (exists u, has_edge g u x) ->
  exists i o,
    Dict.get x (indeg g) = Some i /\ Dict.get x (outdeg g) = Some o /\
    ((forall u, ~ has_edge g u x) -> i = 0) /\
    (x ∉ Dict.keys (adj g) -> o = 0).
Proof.
  simpl. rewrite build_graph_of. set (es := all_edges reads k). intros H.
  assert (x ∈ es.*1 \/ x ∈ es.*2) as Hx.
  { destruct H as [H%keys_graph_of|[u H%has_edge_graph_of%elem_of_edge_snd]]; auto. }
  exists (count_dst es x), (count_src es x).
  rewrite get_indeg_graph_of, get_outdeg_graph_of, !decide_True by done.
  repeat split.
  - intros Hno. apply count_dst_nil.
    intros ([a b] & -> & Hin)%list_elem_of_fmap.
    apply (Hno a). by apply has_edge_graph_of.
  - intros Hk. apply count_src_nil. by rewrite <- keys_graph_of.
Qed.

Lemma degree_entries_witness :
  exists i o,
    Dict.get "ACG"%string (indeg (build_debruijn_graph ["AAAAC"; "AAACG"]%string 3)) = Some i /\
    Dict.get "ACG"%string (outdeg (build_debruijn_graph ["AAAAC"; "AAACG"]%string 3)) = Some o /\
    o = 0.
Proof.
  destruct (degree_entries ["AAAAC"; "AAACG"]%string 3 "ACG"%string)
    as (i & o & Hi & Ho & _ & Hz).
  - right. exists "AAC"%string. vm_compute. left.
  - exists i, o. repeat split; [exact Hi | exact Ho |].
    apply Hz. vm_compute. intros H.
    repeat (apply elem_of_cons in H as [H|H]; [discriminate H|]).
    by apply elem_of_nil in H.
Defined.

(** * The extractor on a closed store

    On a store where every key that is read is present, no read inserts:
    the stateful code returns the store as it got it, with the value that
    the functions over [din], [dout] and [succs] compute. *)

Section closed_store.
Implicit Types (g : graph) (u v x : node).

Lemma read_indeg_present x g :
  is_Some (Dict.get x (indeg g)) -> read_indeg x g = (Ok (din g x), g).
Proof.
  intros [n Hn]. unfold read_indeg, din, Dict.peek.
  rewrite (getitem_present _ _ _ _ Hn), Hn. by destruct g.
Qed.

Lemma read_outdeg_present x g :
  is_Some (Dict.get x (outdeg g)) -> read_outdeg x g = (Ok (dout g x), g).
Proof.
  intros [n Hn]. unfold read_outdeg, dout, Dict.peek.
  rewrite (getitem_present _ _ _ _ Hn), Hn. by destruct g.
Qed.

Lemma read_adj_present x g :
  is_Some (Dict.get x (adj g)) -> read_adj x g = (Ok (succs g x), g).
Proof.
  intros [n Hn]. unfold read_adj, succs, Dict.peek.
  rewrite (getitem_present _ _ _ _ Hn), Hn. by destruct g.
Qed.

(** The value of the anchor condition is the negation of the loop
    condition: its third disjunct never decides. *)
Lemma anchor_cond_interior g v : anchor_cond g v = negb (interior g v).
Proof.
  unfold anchor_cond, interior.
  destruct (din g v =? 1) eqn:Hi, (dout g v =? 1) eqn:Ho; simpl; try done.
  apply Z.eqb_eq in Hi. rewrite Hi. done.
Qed.

Lemma is_anchor_closed g v :
  known g v -> is_anchor v g = (Ok (anchor_cond g v), g).
Proof.
  intros [Hi Ho]. unfold is_anchor, bind, anchor_cond.
  rewrite read_indeg_present by done.
  destruct (din g v =? 1) eqn:Ei; simpl; [|done].
  rewrite read_outdeg_present by done.
  destruct (dout g v =? 1) eqn:Eo; simpl; [|done].
  rewrite read_indeg_present by done.
  apply Z.eqb_eq in Ei. rewrite Ei. done.
Qed.

Lemma select_anchors_closed g ks :
  (forall v, v ∈ ks -> known g v) ->
  select_anchors ks g = (Ok (filter (fun v => anchor_cond g v = true) ks), g).
Proof.
  induction ks as [|v ks IH]; intros Hk; [done|].
  simpl. unfold bind. rewrite is_anchor_closed by (apply Hk; left).
  rewrite IH by (intros; apply Hk; by right). unfold ret.
  rewrite filter_cons. by destruct (anchor_cond g v).
Qed.

Lemma while_loop_closed g fuel :
  closed g -> forall u path visited,
  known g u ->
  while_loop fuel u path visited g = (walk g fuel u path visited, g).
Proof.
  intros (Hk & He & Ha). induction fuel as [|fuel IH]; intros u path visited [Hi Ho]; [done|].
  simpl. unfold bind, interior.
  rewrite read_indeg_present by done.
  destruct (din g u =? 1) eqn:Ei; simpl; [|done].
  rewrite read_outdeg_present by done.
  destruct (dout g u =? 1) eqn:Eo; simpl; [|done].
  rewrite read_adj_present by (apply Ha; unfold interior; by rewrite Ei, Eo).
  destruct (succs g u) as [|n l] eqn:Es; [done|].
  apply IH. apply (He u n). unfold has_edge. rewrite Es. left.
Qed.

Lemma for_neighbors_closed g fuel v :
  closed g -> forall ws visited unitigs,
  (forall w, w ∈ ws -> known g w) ->
  for_neighbors fuel v ws visited unitigs g =
    (scan_neighbors g fuel v ws visited unitigs, g).
Proof.
  intros Hc. induction ws as [|w ws IH]; intros visited unitigs Hws; [done|].
  simpl. destruct (decide (_ ∈ visited)).
  - apply IH. intros; apply Hws; by right.
  - unfold bind. rewrite while_loop_closed by (try done; apply Hws; left).
    destruct (walk g fuel w [v] _) as [[[u path] vis']| |]; try done.
    apply IH. intros; apply Hws; by right.
Qed.

Lemma for_anchors_closed g fuel :
  closed g -> forall vs visited unitigs,
  (forall v, v ∈ vs -> v ∈ Dict.keys (adj g)) ->
  for_anchors fuel vs visited unitigs g =
    (scan_anchors g fuel vs visited unitigs, g).
Proof.
  intros Hc. induction vs as [|v vs IH]; intros visited unitigs Hvs; [done|].
  simpl. unfold bind.
  rewrite read_adj_present by (apply elem_of_keys, Hvs; left).
  rewrite for_neighbors_closed; [|done|].
  - destruct (scan_neighbors g fuel v _ _ _) as [[vis' us']| |]; try done.
    apply IH. intros; apply Hvs; by right.
  - intros w Hw. by apply (proj1 (proj2 Hc) v w).
Qed.

Lemma find_unitigs_closed g fuel :
  closed g -> find_unitigs fuel g = (unitigs_of g fuel, g).
Proof.
  intros Hc. unfold find_unitigs, bind, adj_keys, unitigs_of, anchors.
  rewrite select_anchors_closed by (intros v Hv; by apply (proj1 Hc)).
  rewrite for_anchors_closed; [|done|].
  - by destruct (scan_anchors g fuel _ _ _) as [[vis' us']| |].
  - intros v Hv%list_elem_of_filter. tauto.
Qed.
End closed_store.

(** * Paths and their pairs *)

Section path_pairs.
Implicit Types (p q : list node) (a b x : node).

Lemma pairs_cons_cons a b p : pairs (a :: b :: p) = (a, b) :: pairs (b :: p).
Proof. done. Qed.

Lemma pairs_snoc p a b : pairs (p ++ [a; b]) = pairs (p ++ [a]) ++ [(a, b)].
Proof.
  induction p as [|c p IH]; [done|].
  destruct p as [|d p]; [done|].
  change (pairs ((c :: d :: p) ++ [a; b])) with ((c, d) :: pairs ((d :: p) ++ [a; b])).
  change (pairs ((c :: d :: p) ++ [a])) with ((c, d) :: pairs ((d :: p) ++ [a])).
  by rewrite IH.
Qed.

Lemma last_pairs_snoc p a b : last (pairs (p ++ [a; b])) = Some (a, b).
Proof. by rewrite pairs_snoc, last_snoc. Qed.

Lemma elem_of_tail_pairs p x : x ∈ tail p -> exists a, (a, x) ∈ pairs p.
Proof.
  destruct p as [|c p]; [by intros ?%elem_of_nil|].
  change (tail (c :: p)) with p.
  revert c. induction p as [|d p IH]; intros c Hx; [by apply elem_of_nil in Hx|].
  rewrite pairs_cons_cons. apply elem_of_cons in Hx as [->|Hx].
  - exists c. left.
  - destruct (IH d Hx) as [a Ha]. exists a. by right.
Qed.

Lemma all_pairs_snoc us p : all_pairs (us ++ [p]) = all_pairs us ++ pairs p.
Proof. unfold all_pairs. by rewrite fmap_app, concat_app; simpl; rewrite app_nil_r. Qed.

Lemma snoc_eq_app {A} (L L1 L2 : list A) (e x : A) :
  L ++ [e] = L1 ++ x :: L2 ->
  (L2 = [] /\ L = L1 /\ e = x) \/ (exists L2', L2 = L2' ++ [e] /\ L = L1 ++ x :: L2').
Proof.
  intros H. destruct L2 as [|y L2 _] using rev_ind.
  - left. apply app_inj_tail in H as [-> ->]. done.
  - right. exists L2. split; [|].
    + f_equal. rewrite app_comm_cons, app_assoc in H.
      by apply app_inj_tail in H as [_ ->].
    + rewrite app_comm_cons, app_assoc in H. by apply app_inj_tail in H as [-> _].
Qed.

(** A filter with one element decides membership. *)
Lemma filter_one {A} (P : A -> Prop) `{!forall z, Decision (P z)} (l : list A)
    (e1 e2 : A) :
  length (filter P l) = 1%nat -> e1 ∈ l -> e2 ∈ l -> P e1 -> P e2 -> e1 = e2.
Proof.
  intros Hl H1 H2 P1 P2.
  assert (e1 ∈ filter P l) as Hf1 by by apply list_elem_of_filter.
  assert (e2 ∈ filter P l) as Hf2 by by apply list_elem_of_filter.
  destruct (filter P l) as [|z [|z' l']]; simplify_eq/=.
  apply list_elem_of_singleton in Hf1, Hf2. congruence.
Qed.
End path_pairs.

(** * The extractor on a built graph

    [es] is the list of edge occurrences and the graph is [graph_of es]:
    the outdegree of a node is the length of its adjacency list and its
    indegree is the number of its occurrences in all adjacency lists. *)

Section trail.
Variable es : list edge.
Local Abbreviation g := (graph_of es).
Implicit Types (L : list edge) (u v w x y a b n : node) (q : list node).

Lemma interior_din u : interior g u = true -> din g u = 1.
Proof. unfold interior. intros [H _]%andb_true_iff. by apply Z.eqb_eq. Qed.

Lemma interior_dout u : interior g u = true -> dout g u = 1.
Proof. unfold interior. intros [_ H]%andb_true_iff. by apply Z.eqb_eq. Qed.

(** A node of indegree 1 has one predecessor. *)
Lemma pred_unique x y a : (x, a) ∈ es -> (y, a) ∈ es -> din g a = 1 -> x = y.
Proof.
  rewrite din_graph_of. unfold count_dst. intros Hx Hy Hd.
  assert ((x, a) = (y, a)) as Heq; [|congruence].
  apply (filter_one (fun e : edge => e.2 = a) es); auto. lia.
Qed.

(** A node of outdegree 1 has one successor. *)
Lemma succ_unique a b c : (a, b) ∈ es -> (a, c) ∈ es -> dout g a = 1 -> b = c.
Proof.
  rewrite dout_graph_of. unfold count_src. intros Hx Hy Hd.
  assert ((a, b) = (a, c)) as Heq; [|congruence].
  apply (filter_one (fun e : edge => e.1 = a) es); auto. lia.
Qed.

Lemma interior_succs u : interior g u = true -> exists n, succs g u = [n].
Proof.
  intros H%interior_dout. rewrite dout_graph_of, <- length_outs in H.
  rewrite succs_graph_of. destruct (outs es u) as [|n [|n' l]]; simpl in H; try lia.
  by exists n.
Qed.

Lemma anchor_not_interior v : v ∈ anchors g -> interior g v = false.
Proof.
  intros [H _]%list_elem_of_filter. rewrite anchor_cond_interior in H.
  by destruct (interior g v).
Qed.

(** The trail has no more edges than the graph. *)
Lemma trail_length L : trail_ok g L -> (length L <= length es)%nat.
Proof.
  intros [Hn He _ _]. apply submseteq_length, NoDup_submseteq; [done|].
  intros [a b] H. by apply has_edge_graph_of, He.
Qed.

Lemma continued_start L v w :
  continued g L None -> continued g (L ++ [(v, w)]) (Some w).
Proof.
  intros Hc a b [Hin|Hin%list_elem_of_singleton]%elem_of_app Hb.
  - destruct (Hc a b Hin Hb) as [[c Hbc]|?]; [|done].
    left. exists c. apply elem_of_app. by left.
  - right. congruence.
Qed.

Lemma continued_step L u n :
  continued g L (Some u) -> continued g (L ++ [(u, n)]) (Some n).
Proof.
  intros Hc a b [Hin|Hin%list_elem_of_singleton]%elem_of_app Hb.
  - left. destruct (Hc a b Hin Hb) as [[c Hbc]|[= ->]].
    + exists c. apply elem_of_app. by left.
    + exists n. apply elem_of_app. right. by apply list_elem_of_singleton.
  - right. congruence.
Qed.

Lemma continued_stop L u :
  continued g L (Some u) -> interior g u = false -> continued g L None.
Proof.
  intros Hc Hu a b Hin Hb. destruct (Hc a b Hin Hb) as [?|[= ->]]; [by left|].
  congruence.
Qed.

(** The first edge of a path: out of an anchor, and not visited. *)
Lemma trail_start L v w :
  trail_ok g L -> v ∈ anchors g -> has_edge g v w -> (v, w) ∉ L ->
  trail_ok g (L ++ [(v, w)]).
Proof.
  intros [Hn He Hp Hr] Hv Hvw Hnew. split.
  - apply NoDup_app. repeat split; [done| |apply NoDup_singleton].
    intros e He' ->%list_elem_of_singleton. done.
  - intros a b [Hin|[= -> ->]%list_elem_of_singleton]%elem_of_app; auto.
  - intros L1 a b L2 Heq Ha.
    apply snoc_eq_app in Heq as [(-> & -> & [= <- <-])|(L2' & -> & ->)].
    + apply anchor_not_interior in Hv. congruence.
    + by apply (Hp L1 a b L2').
  - intros a b [Hin|[= -> ->]%list_elem_of_singleton]%elem_of_app.
    + by apply (Hr a b).
    + by apply reach_anchor.
Qed.

(** One more iteration of the [while] loop: the edge out of the
    interior node [u] that the trail has just entered is new. *)
Lemma trail_step L y u n :
  trail_ok g L -> last L = Some (y, u) -> interior g u = true ->
  has_edge g u n -> trail_ok g (L ++ [(u, n)]).
Proof.
  intros [Hn He Hp Hr] Hlast Hu Hun.
  assert ((y, u) ∈ L) as Hyu by by apply last_Some_elem_of.
  split.
  - apply NoDup_app. repeat split; [done| |apply NoDup_singleton].
    intros e He' ->%list_elem_of_singleton.
    apply list_elem_of_split in He' as (L1 & L2 & ->).
    destruct (Hp L1 u n L2 eq_refl Hu) as [x Hx].
    assert ((x, u) ∈ L1) as Hx1 by by apply last_Some_elem_of.
    assert (x = y) as ->.
    { apply (pred_unique x y u); [| |by apply interior_din].
      - apply has_edge_graph_of, He, elem_of_app. by left.
      - by apply has_edge_graph_of, He. }
    rewrite last_app_cons in Hlast. apply last_Some_elem_of in Hlast.
    apply NoDup_app in Hn as (_ & Hdis & _). by apply (Hdis (y, u)).
  - intros a b [Hin|[= -> ->]%list_elem_of_singleton]%elem_of_app; auto.
  - intros L1 a b L2 Heq Ha.
    apply snoc_eq_app in Heq as [(-> & -> & [= <- <-])|(L2' & -> & ->)].
    + by exists y.
    + by apply (Hp L1 a b L2').
  - intros a b [Hin|[= -> ->]%list_elem_of_singleton]%elem_of_app.
    + by apply (Hr a b).
    + apply (reach_step _ y); [by apply (Hr y u)|by apply He].
Qed.

Lemma last_pairs_path v q u : exists y, last (pairs (v :: q ++ [u])) = Some (y, u).
Proof.
  destruct q as [|y q _] using rev_ind.
  - by exists v.
  - exists y. rewrite <- app_assoc. exact (last_pairs_snoc (v :: q) y u).
Qed.

Lemma pairs_path_snoc v q u n :
  pairs (v :: (q ++ [u]) ++ [n]) = pairs (v :: q ++ [u]) ++ [(u, n)].
Proof.
  rewrite <- app_assoc. exact (pairs_snoc (v :: q) u n).
Qed.

(** The [while] loop returns, and leaves a trail that is again between
    two paths. *)
Lemma walk_ok us v fuel : forall q u visited,
  walking g us v q u visited ->
  (length es < fuel + length (all_pairs us ++ pairs (v :: q ++ [u])))%nat ->
  exists t q' visited',
    walk g fuel u (v :: q) visited = Ok (t, v :: q', visited') /\
    resting g (us ++ [v :: q' ++ [t]]) visited' /\
    (forall e, e ∈ all_pairs us ++ pairs (v :: q ++ [u]) ->
               e ∈ all_pairs (us ++ [v :: q' ++ [t]])).
Proof.
  induction fuel as [|fuel IH]; intros q u visited [Ht Hv Hc Hi Hn Hr] Hfuel.
  { apply trail_length in Ht. lia. }
  simpl. destruct (interior g u) eqn:Hu.
  - destruct (interior_succs u Hu) as [n Hs]. rewrite Hs.
    assert (has_edge g u n) as Hun by (unfold has_edge; rewrite Hs; left).
    destruct (last_pairs_path v q u) as [y Hy].
    assert (trail_ok g ((all_pairs us ++ pairs (v :: q ++ [u])) ++ [(u, n)])) as Ht'.
    { apply (trail_step _ y); try done. rewrite last_app, Hy. done. }
    assert (n ∉ q ++ [u]) as Hfresh.
    { intros Hin.
      destruct (elem_of_tail_pairs (v :: q ++ [u]) n Hin) as [a Ha].
      assert (interior g n = true) as Hni.
      { apply elem_of_app in Hin as [Hin| ->%list_elem_of_singleton]; [|done].
        by apply (proj1 (Forall_forall _ _) Hi). }
      assert ((a, n) ∈ all_pairs us ++ pairs (v :: q ++ [u])) as Ha'
        by (apply elem_of_app; by right).
      assert (a = u) as ->.
      { apply (pred_unique a u n); [| |by apply interior_din].
        - by apply has_edge_graph_of, (trail_edges _ _ Ht).
        - by apply has_edge_graph_of. }
      apply trail_nodup, NoDup_app in Ht' as (_ & Hdis & _).
      apply (Hdis _ Ha'). by apply list_elem_of_singleton. }
    destruct (IH (q ++ [u]) n ({[ (u, n) ]} ∪ visited)) as (t & q' & vis' & Hw & Hrest & Hmono).
    + split; rewrite ?pairs_path_snoc, ?app_assoc; try done.
      * intros e. rewrite elem_of_union, elem_of_singleton, elem_of_app,
          list_elem_of_singleton, Hv. tauto.
      * by apply continued_step.
      * apply Forall_app. split; [done|]. by apply Forall_singleton.
      * apply NoDup_app. repeat split; [done| |apply NoDup_singleton].
        intros x Hx ->%list_elem_of_singleton. done.
    + rewrite pairs_path_snoc, app_assoc, length_app.
      change (length [(u, n)]) with 1%nat. lia.
    + exists t, q', vis'. split; [done|]. split; [done|].
      intros e He. apply Hmono. rewrite pairs_path_snoc, app_assoc.
      apply elem_of_app. by left.
  - exists u, q, visited. split; [done|]. split.
    + split; rewrite ?all_pairs_snoc; try done.
      * by apply (continued_stop _ u).
      * apply Forall_app. split; [done|]. by apply Forall_singleton.
    + intros e. by rewrite all_pairs_snoc.
Qed.

(** The loop over the neighbors of an anchor. *)
Lemma scan_neighbors_ok fuel v :
  (length es <= fuel)%nat -> v ∈ anchors g ->
  forall ws us visited,
  (forall w, w ∈ ws -> has_edge g v w) -> resting g us visited ->
  exists us' visited',
    scan_neighbors g fuel v ws visited us = Ok (visited', us') /\
    resting g us' visited' /\
    (forall e, e ∈ all_pairs us -> e ∈ all_pairs us') /\
    (forall w, w ∈ ws -> (v, w) ∈ all_pairs us').
Proof.
  intros Hfuel Hv. induction ws as [|w ws IH]; intros us visited Hws Hrest.
  { exists us, visited. do 3 (split; [done|]). by intros w ?%elem_of_nil. }
  assert (forall w, w ∈ ws -> has_edge g v w) as Hws' by (intros; apply Hws; by right).
  simpl. destruct (decide (_ ∈ visited)) as [Hin|Hnin].
  - destruct (IH us visited Hws' Hrest) as (us' & vis' & Hs & Hr' & Hmono & Hall).
    exists us', vis'. do 3 (split; [done|]).
    intros w' [->|Hw']%elem_of_cons; [|by apply Hall].
    by apply Hmono, (rest_visited _ _ _ Hrest).
  - destruct Hrest as [Ht Hvis Hc Hn].
    assert ((v, w) ∉ all_pairs us) as Hnew by by rewrite <- Hvis.
    match goal with |- context [walk _ _ _ _ ?vis] =>
      destruct (walk_ok us v fuel [] w vis) as (t & q' & vis1 & Hw & Hrest1 & Hmono1)
    end.
    + split; simpl; try done.
      * apply trail_start; try done. apply Hws. left.
      * intros e. rewrite elem_of_union, elem_of_singleton, elem_of_app,
          list_elem_of_singleton, Hvis. tauto.
      * by apply continued_start.
      * apply NoDup_singleton.
    + rewrite length_app. simpl. lia.
    + rewrite Hw.
      destruct (IH _ _ Hws' Hrest1) as (us' & vis' & Hs & Hr' & Hmono & Hall).
      exists us', vis'. do 2 (split; [done|]). split.
      * intros e He. apply Hmono, Hmono1, elem_of_app. by left.
      * intros w' [->|Hw']%elem_of_cons; [|by apply Hall].
        apply Hmono, Hmono1, elem_of_app. right. simpl. left.
Qed.

(** The loop over the anchors. *)
Lemma scan_anchors_ok fuel :
  (length es <= fuel)%nat ->
  forall vs us visited,
  (forall v, v ∈ vs -> v ∈ anchors g) -> resting g us visited ->
  exists us' visited',
    scan_anchors g fuel vs visited us = Ok (visited', us') /\
    resting g us' visited' /\
    (forall e, e ∈ all_pairs us -> e ∈ all_pairs us') /\
    (forall v w, v ∈ vs -> has_edge g v w -> (v, w) ∈ all_pairs us').
Proof.
  intros Hfuel. induction vs as [|v vs IH]; intros us visited Hvs Hrest.
  { exists us, visited. do 3 (split; [done|]). by intros v w ?%elem_of_nil. }
  simpl.
  destruct (scan_neighbors_ok fuel v Hfuel (Hvs v ltac:(left)) (succs g v) us visited)
    as (us1 & vis1 & Hs1 & Hrest1 & Hmono1 & Hall1); [done..|].
  rewrite Hs1.
  destruct (IH us1 vis1) as (us' & vis' & Hs & Hr' & Hmono & Hall); [|done|].
  { intros; apply Hvs; by right. }
  exists us', vis'. do 2 (split; [done|]). split.
  - intros e He. by apply Hmono, Hmono1.
  - intros v' w [->|Hv']%elem_of_cons Hvw; [|by apply Hall].
    by apply Hmono, Hall1.
Qed.

Lemma resting_nil : resting g [] ∅.
Proof.
  split.
  - split.
    + apply NoDup_nil_2.
    + by intros a b ?%elem_of_nil.
    + intros [|] ????; discriminate.
    + by intros a b ?%elem_of_nil.
  - intros e. split; [by intros ?%not_elem_of_empty|by intros ?%elem_of_nil].
  - by intros a b ?%elem_of_nil.
  - constructor.
Qed.

(** The extractor returns on a built graph, with fuel for one loop
    iteration per edge occurrence. *)
Lemma unitigs_of_ok fuel :
  (length es <= fuel)%nat ->
  exists us,
    unitigs_of g fuel = Ok us /\
    trail_ok g (all_pairs us) /\
    continued g (all_pairs us) None /\
    Forall (fun p => NoDup (tail p)) us /\
    (forall v w, v ∈ anchors g -> has_edge g v w -> (v, w) ∈ all_pairs us).
Proof.
  intros Hfuel. unfold unitigs_of.
  destruct (scan_anchors_ok fuel Hfuel (anchors g) [] ∅)
    as (us & vis & Hs & [Ht Hv Hc Hn] & _ & Hall); [done|apply resting_nil|].
  rewrite Hs. by exists us.
Qed.

(** The pairs of the unitigs are the edges out of the nodes reachable
    from an anchor. *)
Lemma pairs_reachable us :
  trail_ok g (all_pairs us) -> continued g (all_pairs us) None ->
  (forall v w, v ∈ anchors g -> has_edge g v w -> (v, w) ∈ all_pairs us) ->
  forall a b, (a, b) ∈ all_pairs us <-> has_edge g a b /\ reach g a.
Proof.
  intros Ht Hc Hall a b. split.
  - intros H. split; [by apply (trail_edges _ _ Ht)|by apply (trail_reach _ _ Ht a b)].
  - intros [Hab Hr]. revert b Hab.
    induction Hr as [v Hv|a' a Hr' IH Ha'a]; intros b Hab; [by apply Hall|].
    destruct (interior g a) eqn:Hi.
    + destruct (Hc a' a (IH a Ha'a) Hi) as [[c Hac]|?]; [|done].
      assert (c = b) as <-; [|done].
      apply (succ_unique a c b); [| |by apply interior_dout].
      * by apply has_edge_graph_of, (trail_edges _ _ Ht).
      * by apply has_edge_graph_of.
    + apply Hall; [|done]. apply list_elem_of_filter. split.
      * rewrite anchor_cond_interior, Hi. done.
      * apply keys_graph_of. apply has_edge_graph_of in Hab.
        by apply (elem_of_edge_fst _ a b).
Qed.
End trail.

(** * The extractor after the builder *)

Lemma fuel_edge_count es n :
  (length es <= Z.to_nat (edge_count (graph_of es)) + n)%nat.
Proof. pose proof (totals_graph_of es) as (_ & _ & ->). lia. Qed.

(** C1 as stated fails: the read "ABCA" with k = 1 builds the cycle
    A -> B -> C -> A, which has no anchor; the extractor returns no unitig
    and the recorded edge A -> B is in no path. *)
Lemma cycle_edges_not_traversed :
  ~ (forall (reads : list string) (k : Z) (fuel : nat) (us : list (list node)),
       (find_unitigs fuel (build_debruijn_graph reads k)).1 = Ok us ->
       forall a b,
         (a, b) ∈ all_pairs us <-> has_edge (build_debruijn_graph reads k) a b).
Proof.
  intros H.
  specialize (H ["ABCA"%string] 1 3%nat [] eq_refl "A"%string "B"%string).
  apply proj2 in H. assert (("A"%string, "B"%string) ∈ all_pairs []) as Hin.
  { apply H. vm_compute. left. }
  by apply elem_of_nil in Hin.
Qed.

(** C1, amended: on a built graph the extractor returns unitigs in which
    no consecutive pair occurs twice, and the pairs are exactly the recorded
    edges whose source is reachable from an anchor.  The fuel is the edge
    count or more. *)
Theorem unitig_pairs_reachable_edges (reads : list string) (k : Z) (n : nat) :
  let g := build_debruijn_graph reads k in
  exists us,
    find_unitigs (Z.to_nat (edge_count g) + n) g = (Ok us, g) /\
    NoDup (all_pairs us) /\
    (forall a b, (a, b) ∈ all_pairs us <-> has_edge g a b /\ reach g a).
Proof.
  simpl. rewrite build_graph_of. set (es := all_edges reads k).
  destruct (unitigs_of_ok es _ (fuel_edge_count es n)) as (us & Hu & Ht & Hc & _ & Hall).
  exists us. rewrite find_unitigs_closed by apply closed_graph_of. rewrite Hu.
  split; [done|]. split; [by apply (trail_nodup _ _ Ht)|].
  by apply pairs_reachable.
Qed.

(** C9: on a built graph the extractor returns the three maps as it got
    them, whatever the fuel: no key is added and no value is changed. *)
Theorem find_unitigs_preserves_graph (reads : list string) (k : Z) (fuel : nat) :
  (find_unitigs fuel (build_debruijn_graph reads k)).2 = build_debruijn_graph reads k.
Proof.
  rewrite build_graph_of. by rewrite find_unitigs_closed by apply closed_graph_of.
Qed.

(** C10: on a built graph the extractor returns when each run of the
    [while] loop may evaluate its condition as many times as there are edge
    occurrences, and the nodes the loop visits for one unitig (the path
    after its first node) are pairwise distinct. *)
Theorem find_unitigs_terminates (reads : list string) (k : Z) (n : nat) :
  let g := build_debruijn_graph reads k in
  exists us,
    find_unitigs (Z.to_nat (edge_count g) + n) g = (Ok us, g) /\
    Forall (fun p => NoDup (tail p)) us.
Proof.
  simpl. rewrite build_graph_of. set (es := all_edges reads k).
  destruct (unitigs_of_ok es _ (fuel_edge_count es n)) as (us & Hu & _ & _ & Hn & _).
  exists us. rewrite find_unitigs_closed by apply closed_graph_of. by rewrite Hu.
Qed.

(** ** Graphs without an anchor *)

Lemma peek_present (d : dict Z) (x : node) (c : Z) :
  c <> 0 -> Dict.peek 0 x d = c -> is_Some (Dict.get x d).
Proof. unfold Dict.peek. destruct (Dict.get x d); [by eexists|congruence]. Qed.

(** C6: when every key of the adjacency map has indegree 1 and outdegree
    1, the anchor selection returns the empty list and the extractor
    returns the empty list of unitigs, with the maps unchanged and without
    running the [while] loop (any fuel). *)
Theorem pure_cycle_no_unitigs (g : graph) (fuel : nat) :
  (forall v, v ∈ Dict.keys (adj g) -> din g v = 1 /\ dout g v = 1) ->
  select_anchors (Dict.keys (adj g)) g = (Ok [], g) /\
  find_unitigs fuel g = (Ok [], g).
Proof.
  intros H.
  assert (select_anchors (Dict.keys (adj g)) g = (Ok [], g)) as Hsel.
  { rewrite select_anchors_closed.
    - f_equal. f_equal. induction (Dict.keys (adj g)) as [|v ks IH]; [done|].
      rewrite filter_cons. destruct (H v) as [Hi Ho]; [left|].
      rewrite decide_False.
      + apply IH. intros; apply H; by right.
      + rewrite anchor_cond_interior. unfold interior. rewrite Hi, Ho. done.
    - intros v [Hi Ho]%H. split; by apply (peek_present _ _ 1). }
  split; [done|].
  unfold find_unitigs, bind, adj_keys. by rewrite Hsel.
Qed.

Lemma pure_cycle_no_unitigs_witness :
  find_unitigs 0
    (Graph [("A", ["B"]); ("B", ["C"]); ("C", ["A"])]
           [("A", 1); ("B", 1); ("C", 1)]
           [("A", 1); ("B", 1); ("C", 1)])%string
  = (Ok [],
     Graph [("A", ["B"]); ("B", ["C"]); ("C", ["A"])]
           [("A", 1); ("B", 1); ("C", 1)]
           [("A", 1); ("B", 1); ("C", 1)])%string.
Proof.
  apply pure_cycle_no_unitigs. intros v Hv. cbn in Hv.
  repeat (apply elem_of_cons in Hv as [->|Hv]; [split; reflexivity|]).
  by apply elem_of_nil in Hv.
Defined.

(** * The extractor on any store

    On an arbitrary store a read may insert a default entry.  That changes
    no value a later read returns, so the stateful code still computes what
    the functions over [din], [dout] and [succs] of the initial store
    compute; [adj] is changed only by the read that raises. *)

Section any_store.
Implicit Types (g : graph) (u v x : node).

Lemma same_view_refl g : same_view g g.
Proof. by intros x. Qed.

Lemma same_view_trans g1 g2 g3 :
  same_view g1 g2 -> same_view g2 g3 -> same_view g1 g3.
Proof.
  intros H12 H23 x. destruct (H12 x) as (? & ? & ?), (H23 x) as (? & ? & ?).
  repeat split; congruence.
Qed.

Lemma read_indeg_view x g :
  exists g', read_indeg x g = (Ok (din g x), g') /\ same_view g g' /\ adj g' = adj g.
Proof.
  unfold read_indeg, din. rewrite <- (peek_getitem 0 x (indeg g)).
  pose proof (peek_getitem_other 0 x (indeg g)) as Ho.
  destruct (Dict.getitem 0 x (indeg g)) as [n d]. eexists. split; [done|].
  split; [|done]. intros y. unfold din, dout, succs. simpl in *. by rewrite Ho.
Qed.

Lemma read_outdeg_view x g :
  exists g', read_outdeg x g = (Ok (dout g x), g') /\ same_view g g' /\ adj g' = adj g.
Proof.
  unfold read_outdeg, dout. rewrite <- (peek_getitem 0 x (outdeg g)).
  pose proof (peek_getitem_other 0 x (outdeg g)) as Ho.
  destruct (Dict.getitem 0 x (outdeg g)) as [n d]. eexists. split; [done|].
  split; [|done]. intros y. unfold din, dout, succs. simpl in *. by rewrite Ho.
Qed.

Lemma read_adj_view x g :
  exists g', read_adj x g = (Ok (succs g x), g') /\ same_view g g' /\
    (is_Some (Dict.get x (adj g)) -> adj g' = adj g).
Proof.
  unfold read_adj, succs. rewrite <- (peek_getitem [] x (adj g)).
  pose proof (peek_getitem_other [] x (adj g)) as Ho.
  pose proof (keys_getitem_present [] x (adj g)) as Hp.
  destruct (Dict.getitem [] x (adj g)) as [n d]. eexists. split; [done|].
  split; [|done]. intros y. unfold din, dout, succs. simpl in *. by rewrite Ho.
Qed.

Lemma succs_present g x : succs g x <> [] -> is_Some (Dict.get x (adj g)).
Proof. unfold succs, Dict.peek. destruct (Dict.get x (adj g)); [by eexists|done]. Qed.

Lemma is_anchor_sim g0 g v :
  same_view g0 g ->
  exists g', is_anchor v g = (Ok (anchor_cond g0 v), g') /\
    same_view g0 g' /\ adj g' = adj g.
Proof.
  intros Hv. unfold is_anchor, bind, anchor_cond.
  destruct (read_indeg_view v g) as (g1 & -> & V1 & A1).
  pose proof (same_view_trans _ _ _ Hv V1) as Hv1.
  rewrite (proj1 (Hv v)).
  destruct (din g0 v =? 1) eqn:Ei; simpl; [|by exists g1].
  destruct (read_outdeg_view v g1) as (g2 & -> & V2 & A2).
  pose proof (same_view_trans _ _ _ Hv1 V2) as Hv2.
  rewrite (proj1 (proj2 (Hv1 v))).
  destruct (dout g0 v =? 1) eqn:Eo; simpl; [|exists g2; split; [done|]; split; [done|congruence]].
  destruct (read_indeg_view v g2) as (g3 & -> & V3 & A3).
  pose proof (same_view_trans _ _ _ Hv2 V3) as Hv3.
  rewrite (proj1 (Hv2 v)). apply Z.eqb_eq in Ei. rewrite Ei. simpl.
  exists g3. split; [done|]. split; [done|congruence].
Qed.

Lemma select_anchors_sim g0 ks : forall g,
  same_view g0 g ->
  exists g', select_anchors ks g =
      (Ok (filter (fun v => anchor_cond g0 v = true) ks), g') /\
    same_view g0 g' /\ adj g' = adj g.
Proof.
  induction ks as [|v ks IH]; intros g Hv; [by exists g|].
  simpl. unfold bind.
  destruct (is_anchor_sim g0 g v Hv) as (g1 & -> & V1 & A1).
  destruct (IH g1 V1) as (g2 & -> & V2 & A2).
  exists g2. rewrite filter_cons. unfold ret.
  destruct (anchor_cond g0 v); (split; [done|]; split; [done|congruence]).
Qed.

Lemma while_loop_sim g0 fuel : forall u path visited g,
  same_view g0 g ->
  exists g', while_loop fuel u path visited g = (walk g0 fuel u path visited, g') /\
    same_view g0 g' /\
    (forall r, walk g0 fuel u path visited = Ok r -> adj g' = adj g).
Proof.
  induction fuel as [|fuel IH]; intros u path visited g Hv; [by exists g|].
  simpl. unfold bind, interior.
  destruct (read_indeg_view u g) as (g1 & -> & V1 & A1).
  pose proof (same_view_trans _ _ _ Hv V1) as Hv1.
  rewrite (proj1 (Hv u)).
  destruct (din g0 u =? 1) eqn:Ei; simpl; [|by exists g1].
  destruct (read_outdeg_view u g1) as (g2 & -> & V2 & A2).
  pose proof (same_view_trans _ _ _ Hv1 V2) as Hv2.
  rewrite (proj1 (proj2 (Hv1 u))).
  destruct (dout g0 u =? 1) eqn:Eo; simpl; [|exists g2; split; [done|]; split; [done|congruence]].
  destruct (read_adj_view u g2) as (g3 & -> & V3 & A3).
  pose proof (same_view_trans _ _ _ Hv2 V3) as Hv3.
  pose proof (succs_present g2 u) as Hp.
  rewrite (proj2 (proj2 (Hv2 u))) in *.
  destruct (succs g0 u) as [|n l] eqn:Es; [by exists g3|].
  destruct (IH n (path ++ [u]) ({[ (u, n) ]} ∪ visited) g3 Hv3) as (g4 & -> & V4 & A4).
  exists g4. split; [done|]. split; [done|]. intros r Hr. rewrite (A4 r Hr), A3 by auto. congruence.
Qed.

Lemma for_neighbors_sim g0 fuel v ws : forall visited unitigs g,
  same_view g0 g ->
  exists g', for_neighbors fuel v ws visited unitigs g =
      (scan_neighbors g0 fuel v ws visited unitigs, g') /\
    same_view g0 g' /\
    (forall r, scan_neighbors g0 fuel v ws visited unitigs = Ok r -> adj g' = adj g).
Proof.
  induction ws as [|w ws IH]; intros visited unitigs g Hv; [by exists g|].
  simpl. destruct (decide (_ ∈ visited)); [by apply IH|].
  unfold bind.
  match goal with |- context [while_loop _ _ _ ?vis g] =>
    destruct (while_loop_sim g0 fuel w [v] vis g Hv) as (g1 & -> & V1 & A1)
  end.
  destruct (walk g0 fuel w [v] _) as [[[u path] vis']| |]; [|by exists g1..].
  destruct (IH vis' (unitigs ++ [path ++ [u]]) g1 V1) as (g2 & -> & V2 & A2).
  exists g2. split; [done|]. split; [done|]. intros r Hr. rewrite (A2 r Hr). by eapply A1.
Qed.

Lemma for_anchors_sim g0 fuel vs : forall visited unitigs g,
  same_view g0 g -> (forall v, v ∈ vs -> v ∈ Dict.keys (adj g)) ->
  exists g', for_anchors fuel vs visited unitigs g =
      (scan_anchors g0 fuel vs visited unitigs, g') /\
    same_view g0 g' /\
    (forall r, scan_anchors g0 fuel vs visited unitigs = Ok r -> adj g' = adj g).
Proof.
  induction vs as [|v vs IH]; intros visited unitigs g Hv Hk; [by exists g|].
  simpl. unfold bind.
  destruct (read_adj_view v g) as (g1 & -> & V1 & A1).
  pose proof (same_view_trans _ _ _ Hv V1) as Hv1.
  rewrite (proj2 (proj2 (Hv v))).
  assert (adj g1 = adj g) as A1' by (apply A1, elem_of_keys, Hk; left).
  destruct (for_neighbors_sim g0 fuel v (succs g0 v) visited unitigs g1 Hv1)
    as (g2 & -> & V2 & A2).
  destruct (scan_neighbors g0 fuel v _ _ _) as [[vis' us']| |]; [|by exists g2..].
  assert (adj g2 = adj g) as A2' by (rewrite (A2 _ eq_refl); done).
  destruct (IH vis' us' g2 V2) as (g3 & -> & V3 & A3).
  { intros v' Hv'. rewrite A2'. apply Hk. by right. }
  exists g3. split; [done|]. split; [done|]. intros r Hr. rewrite (A3 r Hr). done.
Qed.

Lemma find_unitigs_sim g0 g fuel :
  same_view g0 g -> Dict.keys (adj g) = Dict.keys (adj g0) ->
  exists g', find_unitigs fuel g = (unitigs_of g0 fuel, g') /\
    same_view g0 g' /\
    (forall us, unitigs_of g0 fuel = Ok us -> adj g' = adj g).
Proof.
  intros Hv Hk. unfold find_unitigs, bind, adj_keys, unitigs_of, anchors.
  destruct (select_anchors_sim g0 (Dict.keys (adj g)) g Hv) as (g1 & -> & V1 & A1).
  rewrite Hk.
  destruct (for_anchors_sim g0 fuel (filter (fun v => anchor_cond g0 v = true)
              (Dict.keys (adj g0))) ∅ [] g1 V1) as (g2 & -> & V2 & A2).
  { intros v [_ Hin]%list_elem_of_filter. by rewrite A1, Hk. }
  destruct (scan_anchors g0 fuel _ _ _) as [[vis' us']| |]; [|by exists g2..].
  exists g2. split; [done|]. split; [done|]. intros us _. rewrite (A2 _ eq_refl). done.
Qed.
End any_store.

(** * Fuel

    A result other than [OutOfFuel] does not depend on the fuel. *)

Section fuel.
Variable g : graph.
Implicit Types (u v w : node) (fuel : nat).

Lemma walk_fuel fuel : forall fuel' u path visited,
  walk g fuel u path visited <> OutOfFuel -> (fuel <= fuel')%nat ->
  walk g fuel' u path visited = walk g fuel u path visited.
Proof.
  induction fuel as [|fuel IH]; intros fuel' u path visited Hne Hle; [done|].
  destruct fuel' as [|fuel']; [lia|]. simpl in *.
  destruct (interior g u); [|done]. destruct (succs g u) as [|n l]; [done|].
  apply IH; [done|lia].
Qed.

Lemma scan_neighbors_fuel fuel fuel' v ws : forall visited unitigs,
  scan_neighbors g fuel v ws visited unitigs <> OutOfFuel -> (fuel <= fuel')%nat ->
  scan_neighbors g fuel' v ws visited unitigs =
  scan_neighbors g fuel v ws visited unitigs.
Proof.
  induction ws as [|w ws IH]; intros visited unitigs Hne Hle; [done|].
  simpl in *. destruct (decide (_ ∈ visited)); [by apply IH|].
  destruct (walk g fuel w [v] _) as [[[u path] vis']| |] eqn:Ew; [| |done].
  - rewrite (walk_fuel fuel fuel'), Ew by (done || congruence). by apply IH.
  - by rewrite (walk_fuel fuel fuel'), Ew by (done || congruence).
Qed.

Lemma scan_anchors_fuel fuel fuel' vs : forall visited unitigs,
  scan_anchors g fuel vs visited unitigs <> OutOfFuel -> (fuel <= fuel')%nat ->
  scan_anchors g fuel' vs visited unitigs =
  scan_anchors g fuel vs visited unitigs.
Proof.
  induction vs as [|v vs IH]; intros visited unitigs Hne Hle; [done|].
  simpl in *.
  destruct (scan_neighbors g fuel v _ _ _) as [[vis' us']| |] eqn:Es; [| |done].
  - rewrite (scan_neighbors_fuel fuel fuel'), Es by (done || congruence). by apply IH.
  - by rewrite (scan_neighbors_fuel fuel fuel'), Es by (done || congruence).
Qed.

Lemma unitigs_of_fuel fuel fuel' :
  unitigs_of g fuel <> OutOfFuel -> (fuel <= fuel')%nat ->
  unitigs_of g fuel' = unitigs_of g fuel.
Proof.
  unfold unitigs_of. intros Hne Hle.
  destruct (scan_anchors g fuel _ _ _) as [[vis' us']| |] eqn:Es; [| |done].
  - by rewrite (scan_anchors_fuel fuel fuel'), Es by (done || congruence).
  - by rewrite (scan_anchors_fuel fuel fuel'), Es by (done || congruence).
Qed.
End fuel.

(** C7: both components are deterministic.  The builder has no state
    besides its two arguments: equal reads and equal k give the same three
    dictionaries, entry for entry and in the same order.  The extractor is a
    function of the values its reads return: when a run on a store returns a
    list of unitigs, every run with at least as much fuel returns the same
    list, in the same order, both on that store and on the store the first
    run has left behind (the same graph, with the default entries the first
    run may have inserted). *)
Theorem find_unitigs_deterministic :
  (forall (reads reads' : list string) (k k' : Z),
     reads = reads' -> k = k' ->
     build_debruijn_graph reads k = build_debruijn_graph reads' k') /\
  (forall (g g' : graph) (fuel : nat) (us : list (list node)),
     find_unitigs fuel g = (Ok us, g') ->
     forall fuel', (fuel <= fuel')%nat ->
       (find_unitigs fuel' g).1 = Ok us /\ (find_unitigs fuel' g').1 = Ok us).
Proof.
  split; [by intros reads reads' k k' -> ->|].
  intros g g' fuel us Hrun fuel' Hle.
  destruct (find_unitigs_sim g g fuel (same_view_refl g) eq_refl) as (g1 & H1 & V1 & A1).
  rewrite Hrun in H1. injection H1 as Hus <-.
  assert (unitigs_of g fuel' = Ok us) as Hus'.
  { rewrite (unitigs_of_fuel g fuel fuel'); [done|congruence|done]. }
  split.
  - destruct (find_unitigs_sim g g fuel' (same_view_refl g) eq_refl) as (g2 & -> & _).
    done.
  - destruct (find_unitigs_sim g g' fuel' V1) as (g2 & -> & _); [|done].
    by rewrite (A1 us).
Qed.

Lemma find_unitigs_deterministic_witness :
  (find_unitigs 9
     (Graph [("A", ["B"]); ("B", ["C"])] [("B", 1)] [("A", 1); ("B", 1)])%string).1
  = Ok [["A"; "B"; "C"]]%string /\
  (find_unitigs 9
     (Graph [("A", ["B"]); ("B", ["C"])] [("B", 1); ("A", 0); ("C", 0)]
            [("A", 1); ("B", 1)])%string).1
  = Ok [["A"; "B"; "C"]]%string.
Proof.
  apply (proj2 find_unitigs_deterministic _ _ 3%nat); [reflexivity | lia].
Defined.

(** * Broken degree invariants *)

Section dead_ends.
Variable g : graph.
Implicit Types (u v w : node) (fuel : nat).

Lemma while_loop_raises fuel u path visited :
  interior g u = true -> succs g u = [] ->
  (while_loop (S fuel) u path visited g).1 = IndexError.
Proof.
  intros Hi Hs.
  destruct (while_loop_sim g (S fuel) u path visited g (same_view_refl g))
    as (g' & -> & _).
  simpl. by rewrite Hi, Hs.
Qed.

Lemma walk_dead_end u :
  dead_end g u -> forall fuel path visited,
  walk g fuel u path visited = IndexError \/ walk g fuel u path visited = OutOfFuel.
Proof.
  induction 1 as [u Hi Hs|u n l Hi Hs Hd IH]; intros [|fuel] path visited;
    simpl; auto; rewrite Hi, Hs; auto.
Qed.

Lemma walk_adds_interior fuel : forall u path visited t path' visited',
  walk g fuel u path visited = Ok (t, path', visited') ->
  forall e, e ∈ visited' -> e ∈ visited \/ interior g e.1 = true.
Proof.
  induction fuel as [|fuel IH]; intros u path visited t path' visited' Hw e He;
    simpl in Hw; [done|].
  destruct (interior g u) eqn:Hi; [|simplify_eq; auto].
  destruct (succs g u) as [|n l]; [done|].
  destruct (IH _ _ _ _ _ _ Hw e He) as [[->%elem_of_singleton|Hin]%elem_of_union|Hin]; auto.
Qed.

Lemma anchors_not_interior v : v ∈ anchors g -> interior g v = false.
Proof.
  intros [H _]%list_elem_of_filter. rewrite anchor_cond_interior in H.
  by destruct (interior g v).
Qed.

Lemma scan_neighbors_safe fuel v :
  interior g v = false ->
  forall ws visited unitigs visited' unitigs',
  safe g visited ->
  scan_neighbors g fuel v ws visited unitigs = Ok (visited', unitigs') ->
  safe g visited' /\ forall w, w ∈ ws -> ~ dead_end g w.
Proof.
  intros Hv. induction ws as [|w ws IH]; intros visited unitigs visited' unitigs' Hs Hr.
  { simpl in Hr. simplify_eq. split; [done|]. by intros w ?%elem_of_nil. }
  simpl in Hr. destruct (decide (_ ∈ visited)) as [Hin|Hnin].
  - destruct (IH _ _ _ _ Hs Hr) as [Hs' Hall]. split; [done|].
    intros w' [->|Hw']%elem_of_cons; [|by apply Hall].
    destruct (Hs v w Hin); [congruence|done].
  - destruct (walk g fuel w [v] _) as [[[u path] vis1]| |] eqn:Ew; [|done..].
    assert (~ dead_end g w) as Hw.
    { intros Hd.
      match type of Ew with walk _ _ _ _ ?vis = _ =>
        destruct (walk_dead_end w Hd fuel [v] vis) as [E|E];
          rewrite E in Ew; discriminate Ew
      end. }
    assert (safe g vis1) as Hs1.
    { intros a b Hab.
      destruct (walk_adds_interior _ _ _ _ _ _ _ Ew (a, b) Hab)
        as [[[= -> ->]%elem_of_singleton|Hin]%elem_of_union|Hin]; auto. }
    destruct (IH _ _ _ _ Hs1 Hr) as [Hs' Hall]. split; [done|].
    intros w' [->|Hw']%elem_of_cons; [done|by apply Hall].
Qed.

Lemma scan_anchors_safe fuel :
  forall vs visited unitigs visited' unitigs',
  (forall v, v ∈ vs -> interior g v = false) ->
  safe g visited ->
  scan_anchors g fuel vs visited unitigs = Ok (visited', unitigs') ->
  safe g visited' /\ forall v w, v ∈ vs -> has_edge g v w -> ~ dead_end g w.
Proof.
  induction vs as [|v vs IH]; intros visited unitigs visited' unitigs' Hvs Hs Hr.
  { simpl in Hr. simplify_eq. split; [done|]. by intros v w ?%elem_of_nil. }
  simpl in Hr.
  destruct (scan_neighbors g fuel v _ _ _) as [[vis1 us1]| |] eqn:En; [|done..].
  destruct (scan_neighbors_safe fuel v (Hvs v ltac:(left)) _ _ _ _ _ Hs En) as [Hs1 Hall1].
  destruct (IH _ _ _ _ (fun v' Hv' => Hvs v' ltac:(by right)) Hs1 Hr) as [Hs' Hall].
  split; [done|].
  intros v' w [->|Hv']%elem_of_cons Hvw; [by apply Hall1|by apply (Hall v')].
Qed.

Lemma unitigs_of_dead_end fuel v w :
  v ∈ anchors g -> has_edge g v w -> dead_end g w ->
  unitigs_of g fuel = IndexError \/ unitigs_of g fuel = OutOfFuel.
Proof.
  intros Hv Hvw Hd. unfold unitigs_of.
  destruct (scan_anchors g fuel _ _ _) as [[vis us]| |] eqn:Es; auto.
  destruct (scan_anchors_safe fuel _ _ _ _ _ anchors_not_interior
              (fun a b H => False_ind _ (not_elem_of_empty _ H)) Es) as [_ Hall].
  by destruct (Hall v w Hv Hvw).
Qed.
End dead_ends.

Section raising_runs.
Variable g : graph.
Implicit Types (u v w : node) (fuel : nat).

Lemma walk_halts u :
  halts g u ->
  exists n, forall fuel path visited,
    (n <= fuel)%nat -> walk g fuel u path visited <> OutOfFuel.
Proof.
  induction 1 as [u Hi|u Hi Hs|u n0 l Hi Hs Hh [n IH]].
  - exists 1%nat. intros [|fuel] path visited Hle; [lia|]. simpl. by rewrite Hi.
  - exists 1%nat. intros [|fuel] path visited Hle; [lia|]. simpl. by rewrite Hi, Hs.
  - exists (S n). intros [|fuel] path visited Hle; [lia|]. simpl. rewrite Hi, Hs.
    apply IH. lia.
Qed.

Lemma walk_dead_end_raises u :
  dead_end g u ->
  exists n, forall fuel path visited,
    (n <= fuel)%nat -> walk g fuel u path visited = IndexError.
Proof.
  induction 1 as [u Hi Hs|u n0 l Hi Hs Hd [n IH]].
  - exists 1%nat. intros [|fuel] path visited Hle; [lia|]. simpl. by rewrite Hi, Hs.
  - exists (S n). intros [|fuel] path visited Hle; [lia|]. simpl. rewrite Hi, Hs.
    apply IH. lia.
Qed.

Lemma halts_bound (ws : list node) :
  (forall w, w ∈ ws -> halts g w) ->
  exists n, forall fuel w path visited,
    (n <= fuel)%nat -> w ∈ ws -> walk g fuel w path visited <> OutOfFuel.
Proof.
  induction ws as [|w0 ws IH]; intros Hall.
  { exists 0%nat. by intros fuel w path visited _ ?%elem_of_nil. }
  destruct (walk_halts w0 (Hall w0 ltac:(left))) as [n1 H1].
  destruct IH as [n2 H2]; [intros; apply Hall; by right|].
  exists (n1 `max` n2)%nat. intros fuel w path visited Hle [->|Hw]%elem_of_cons.
  - apply H1. lia.
  - apply H2; [lia|done].
Qed.

Lemma scan_neighbors_progress fuel v ws :
  (forall w path visited, w ∈ ws -> walk g fuel w path visited <> OutOfFuel) ->
  forall visited unitigs, scan_neighbors g fuel v ws visited unitigs <> OutOfFuel.
Proof.
  induction ws as [|w ws IH]; intros Hw visited unitigs; simpl; [done|].
  assert (forall w' path vis, w' ∈ ws -> walk g fuel w' path vis <> OutOfFuel) as Hw'
    by (intros; apply Hw; by right).
  destruct (decide (_ ∈ visited)); [by apply IH|].
  destruct (walk g fuel w [v] _) as [[[u path] vis']| |] eqn:E; [by apply IH|done|].
  exfalso. by apply (Hw w _ _ ltac:(left)) in E.
Qed.

Lemma scan_neighbors_app fuel v ws1 ws2 : forall visited unitigs,
  scan_neighbors g fuel v (ws1 ++ ws2) visited unitigs =
    match scan_neighbors g fuel v ws1 visited unitigs with
    | Ok (visited', unitigs') => scan_neighbors g fuel v ws2 visited' unitigs'
    | IndexError => IndexError
    | OutOfFuel => OutOfFuel
    end.
Proof.
  induction ws1 as [|w ws1 IH]; intros visited unitigs; simpl; [done|].
  destruct (decide (_ ∈ visited)); [apply IH|].
  destruct (walk g fuel w [v] _) as [[[u path] vis']| |]; [apply IH|done..].
Qed.

(** The loop over the neighbors raises at the first neighbor from which
    the [while] loop raises, when the walks before it end. *)
Lemma scan_neighbors_raises fuel v ws1 w ws2 visited unitigs :
  interior g v = false -> safe g visited ->
  (forall w' path vis, w' ∈ ws1 -> walk g fuel w' path vis <> OutOfFuel) ->
  dead_end g w -> (forall path vis, walk g fuel w path vis = IndexError) ->
  scan_neighbors g fuel v (ws1 ++ w :: ws2) visited unitigs = IndexError.
Proof.
  intros Hv Hs Hpre Hd Hraise. rewrite scan_neighbors_app.
  destruct (scan_neighbors g fuel v ws1 visited unitigs) as [[vis' us']| |] eqn:E.
  - destruct (scan_neighbors_safe g fuel v Hv _ _ _ _ _ Hs E) as [Hs' _].
    simpl. destruct (decide (_ ∈ vis')) as [Hin|Hnin].
    + destruct (Hs' v w Hin); [congruence|done].
    + by rewrite Hraise.
  - done.
  - by apply scan_neighbors_progress in E.
Qed.

Lemma scan_anchors_progress fuel vs :
  (forall v w path visited,
     v ∈ vs -> w ∈ succs g v -> walk g fuel w path visited <> OutOfFuel) ->
  forall visited unitigs, scan_anchors g fuel vs visited unitigs <> OutOfFuel.
Proof.
  induction vs as [|v vs IH]; intros Hw visited unitigs; simpl; [done|].
  destruct (scan_neighbors g fuel v _ _ _) as [[vis' us']| |] eqn:E; [|done|].
  - apply IH. intros v' w path vis Hv'. apply Hw. by right.
  - exfalso. apply scan_neighbors_progress in E; [done|].
    intros w path vis Hin. apply (Hw v); [left|done].
Qed.

Lemma scan_anchors_app fuel vs1 vs2 : forall visited unitigs,
  scan_anchors g fuel (vs1 ++ vs2) visited unitigs =
    match scan_anchors g fuel vs1 visited unitigs with
    | Ok (visited', unitigs') => scan_anchors g fuel vs2 visited' unitigs'
    | IndexError => IndexError
    | OutOfFuel => OutOfFuel
    end.
Proof.
  induction vs1 as [|v vs1 IH]; intros visited unitigs; simpl; [done|].
  destruct (scan_neighbors g fuel v _ _ _) as [[vis' us']| |]; [apply IH|done..].
Qed.

(** The loop over the anchors raises at the first edge out of an anchor
    from which the [while] loop raises, when the walks before it end. *)
Lemma scan_anchors_raises fuel vs1 v vs2 ws1 w ws2 visited unitigs :
  (forall v', v' ∈ vs1 ++ [v] -> interior g v' = false) ->
  safe g visited ->
  (forall v' w' path vis,
     v' ∈ vs1 -> w' ∈ succs g v' -> walk g fuel w' path vis <> OutOfFuel) ->
  succs g v = ws1 ++ w :: ws2 ->
  (forall w' path vis, w' ∈ ws1 -> walk g fuel w' path vis <> OutOfFuel) ->
  dead_end g w -> (forall path vis, walk g fuel w path vis = IndexError) ->
  scan_anchors g fuel (vs1 ++ v :: vs2) visited unitigs = IndexError.
Proof.
  intros Hvs Hs Hpre1 Hsucc Hpre2 Hd Hraise. rewrite scan_anchors_app.
  destruct (scan_anchors g fuel vs1 visited unitigs) as [[vis' us']| |] eqn:E.
  - destruct (scan_anchors_safe g fuel _ _ _ _ _
                (fun v' Hv' => Hvs v' ltac:(apply elem_of_app; by left)) Hs E) as [Hs' _].
    simpl. rewrite Hsucc.
    rewrite (scan_neighbors_raises fuel v ws1 w ws2 vis' us'); try done.
    apply Hvs, elem_of_app. right. left.
  - done.
  - by apply scan_anchors_progress in E.
Qed.

(** With enough fuel the extractor raises, when the walks before the
    first raising one end. *)
Lemma unitigs_of_raises vs1 v vs2 ws1 w ws2 :
  anchors g = vs1 ++ v :: vs2 ->
  succs g v = ws1 ++ w :: ws2 ->
  (forall v' w', v' ∈ vs1 -> has_edge g v' w' -> halts g w') ->
  (forall w', w' ∈ ws1 -> halts g w') ->
  dead_end g w ->
  exists fuel0, forall fuel, (fuel0 <= fuel)%nat -> unitigs_of g fuel = IndexError.
Proof.
  intros Ha Hsucc Hh1 Hh2 Hd.
  destruct (halts_bound (vs1 ≫= succs g)) as [n1 H1].
  { intros w' (v' & Hw' & Hv')%list_elem_of_bind. by apply (Hh1 v' w'). }
  destruct (halts_bound ws1 Hh2) as [n2 H2].
  destruct (walk_dead_end_raises w Hd) as [n3 H3].
  exists (n1 `max` (n2 `max` n3))%nat. intros fuel Hle.
  unfold unitigs_of. rewrite Ha.
  rewrite (scan_anchors_raises fuel vs1 v vs2 ws1 w ws2 ∅ []); try done.
  - intros v' Hv'. apply anchors_not_interior. rewrite Ha.
    apply elem_of_app in Hv' as [Hv'|Hv'%list_elem_of_singleton];
      apply elem_of_app; [by left|right; subst; left].
  - intros v' w' path vis Hv' Hw'. apply H1; [lia|].
    apply list_elem_of_bind. by exists v'.
  - intros w' path vis Hw'. apply H2; [lia|done].
  - intros path vis. apply H3. lia.
Qed.
End raising_runs.

(** C8: when the [while] loop is at a node with indegree 1 and outdegree 1
    whose adjacency list is empty or missing, the lookup [adj[u][0]] raises
    [IndexError] at once.  When such a node lies on the chain that starts at
    a neighbor of an anchor, no run of the extractor returns a list of
    unitigs: a run that ends, ends with [IndexError], and so does every run
    with more fuel.  And the call does raise: when the traversal reaches
    that chain, that is when the walks from the anchor edges met before it
    end, every run with enough fuel ends with [IndexError]. *)
Theorem broken_invariant_raises (g : graph) :
  (forall fuel u path visited,
     interior g u = true -> succs g u = [] ->
     (while_loop (S fuel) u path visited g).1 = IndexError) /\
  (forall v w,
     v ∈ anchors g -> has_edge g v w -> dead_end g w ->
     forall fuel,
       ((find_unitigs fuel g).1 = IndexError \/ (find_unitigs fuel g).1 = OutOfFuel) /\
       ((find_unitigs fuel g).1 = IndexError ->
        forall fuel', (fuel <= fuel')%nat -> (find_unitigs fuel' g).1 = IndexError)) /\
  (forall vs1 v vs2 ws1 w ws2,
     anchors g = vs1 ++ v :: vs2 ->
     succs g v = ws1 ++ w :: ws2 ->
     (forall v' w', v' ∈ vs1 -> has_edge g v' w' -> halts g w') ->
     (forall w', w' ∈ ws1 -> halts g w') ->
     dead_end g w ->
     exists fuel0, forall fuel,
       (fuel0 <= fuel)%nat -> (find_unitigs fuel g).1 = IndexError).
Proof.
  split; [intros; by apply while_loop_raises|]. split.
  - intros v w Hv Hvw Hd fuel.
    destruct (find_unitigs_sim g g fuel (same_view_refl g) eq_refl) as (g1 & -> & _).
    split; [by apply (unitigs_of_dead_end g fuel v w)|].
    simpl. intros Hf fuel' Hle.
    destruct (find_unitigs_sim g g fuel' (same_view_refl g) eq_refl) as (g2 & -> & _).
    simpl. rewrite (unitigs_of_fuel g fuel fuel'); [done|congruence|done].
  - intros vs1 v vs2 ws1 w ws2 Ha Hsucc Hh1 Hh2 Hd.
    destruct (unitigs_of_raises g vs1 v vs2 ws1 w ws2 Ha Hsucc Hh1 Hh2 Hd) as [fuel0 H0].
    exists fuel0. intros fuel Hle.
    destruct (find_unitigs_sim g g fuel (same_view_refl g) eq_refl) as (g1 & -> & _).
    simpl. by apply H0.
Qed.

Lemma broken_invariant_raises_witness :
  exists fuel0, forall fuel,
    (fuel0 <= fuel)%nat ->
    (find_unitigs fuel
       (Graph [("A", ["B"; "C"])]
              [("A", 0); ("B", 2); ("C", 1)]
              [("A", 2); ("B", 0); ("C", 1)])%string).1
    = IndexError.
Proof.
  set (g := (Graph [("A", ["B"; "C"])]
                   [("A", 0); ("B", 2); ("C", 1)]
                   [("A", 2); ("B", 0); ("C", 1)])%string).
  apply (proj2 (proj2 (broken_invariant_raises g))
           [] "A"%string [] ["B"%string] "C"%string []).
  - reflexivity.
  - reflexivity.
  - by intros v' w' ?%elem_of_nil.
  - intros w' ->%list_elem_of_singleton. by apply halts_exit.
  - by apply dead_here.
Defined.

(** * Further properties of the builder *)

Section builder_more.
Implicit Types (es : list edge) (x u v : node) (a : dict (list node)).

Lemma first_seen_snoc {A} `{EqDecision A} (l : list A) (z : A) :
  first_seen (l ++ [z]) =
    if decide (z ∈ first_seen l) then first_seen l else first_seen l ++ [z].
Proof. unfold first_seen. by rewrite foldl_app. Qed.

Lemma elem_of_first_seen {A} `{EqDecision A} (l : list A) (z : A) :
  z ∈ first_seen l <-> z ∈ l.
Proof.
  induction l as [|y l IH] using rev_ind; [done|].
  rewrite first_seen_snoc. case_decide; set_solver.
Qed.

Lemma keys_set_absent {V} (d : dict V) k (v : V) :
  Dict.get k d = None -> Dict.set k v d = d ++ [(k, v)].
Proof.
  induction d as [|[k' v'] d IH]; simpl; [done|].
  case_decide; [done|]. intros Hn. by rewrite IH.
Qed.

Lemma keys_set_present {V} (d : dict V) k (v : V) :
  is_Some (Dict.get k d) -> Dict.keys (Dict.set k v d) = Dict.keys d.
Proof.
  unfold Dict.keys. induction d as [|[k' v'] d IH]; simpl; [by intros [? ?]|].
  case_decide; [done|]. intros Hs. csimpl. by rewrite IH.
Qed.

Lemma keys_append_adj u v a :
  Dict.keys (append_adj u v a) =
    if decide (u ∈ Dict.keys a) then Dict.keys a else Dict.keys a ++ [u].
Proof.
  unfold append_adj, Dict.getitem. case_decide as Hin.
  - apply elem_of_keys in Hin as [l Hl]. rewrite Hl.
    apply keys_set_present. by eexists.
  - destruct (Dict.get u a) as [l|] eqn:Hl.
    { exfalso. apply Hin, elem_of_keys. by eexists. }
    rewrite (keys_set_absent a u [] Hl).
    rewrite keys_set_present.
    + unfold Dict.keys. by rewrite fmap_app.
    + rewrite <- keys_set_absent by done. rewrite get_set, decide_True by done.
      by eexists.
Qed.

Lemma keys_adj_graph_of es :
  Dict.keys (adj (graph_of es)) = first_seen es.*1.
Proof.
  induction es as [|[u v] es IH] using rev_ind; [done|].
  rewrite graph_of_snoc, fmap_app. simpl.
  rewrite (first_seen_snoc es.*1 u), keys_append_adj, IH. done.
Qed.

Lemma count_in_snoc x l v :
  count_in x (l ++ [v]) = count_in x l + (if decide (v = x) then 1 else 0).
Proof.
  unfold count_in. rewrite filter_app, length_app, filter_cons, filter_nil.
  case_decide; simpl; lia.
Qed.

Lemma Zsum_count_append x u v a :
  Zsum (count_in x <$> Dict.values (append_adj u v a)) =
  Zsum (count_in x <$> Dict.values a) + (if decide (v = x) then 1 else 0).
Proof.
  unfold append_adj, Dict.getitem.
  destruct (Dict.get u a) as [l|] eqn:E; rewrite !Zsum_set; rewrite ?get_set, ?E;
    rewrite ?decide_True by done; rewrite count_in_snoc.
  - lia.
  - change (count_in x []) with 0. lia.
Qed.

Lemma Zsum_count_graph_of es x :
  Zsum (count_in x <$> Dict.values (adj (graph_of es))) = count_dst es x.
Proof.
  induction es as [|[u v] es IH] using rev_ind; [done|].
  rewrite graph_of_snoc, count_dst_snoc. simpl.
  by rewrite Zsum_count_append, IH.
Qed.

Lemma outs_app es1 es2 x : outs (es1 ++ es2) x = outs es1 x ++ outs es2 x.
Proof. unfold outs. by rewrite filter_app, fmap_app. Qed.

Lemma count_src_app es1 es2 x :
  count_src (es1 ++ es2) x = count_src es1 x + count_src es2 x.
Proof. unfold count_src. rewrite filter_app, length_app. lia. Qed.

Lemma count_dst_app es1 es2 x :
  count_dst (es1 ++ es2) x = count_dst es1 x + count_dst es2 x.
Proof. unfold count_dst. rewrite filter_app, length_app. lia. Qed.

Lemma all_edges_app rs1 rs2 k :
  all_edges (rs1 ++ rs2) k = all_edges rs1 k ++ all_edges rs2 k.
Proof. unfold all_edges. by rewrite fmap_app, concat_app. Qed.

Lemma elem_of_concat {A} (ls : list (list A)) (z : A) :
  z ∈ concat ls <-> exists l, z ∈ l /\ l ∈ ls.
Proof.
  induction ls as [|l0 ls IH]; simpl.
  - split; [by intros ?%elem_of_nil|by intros (? & _ & ?%elem_of_nil)].
  - rewrite elem_of_app, IH. split.
    + intros [H|(l & H1 & H2)]; [exists l0; split; [done|left]|exists l; split; [done|by right]].
    + intros (l & H1 & [->|H2]%elem_of_cons); [by left|right; by exists l].
Qed.

Lemma elem_of_all_edges reads k e :
  e ∈ all_edges reads k <->
  exists read i, read ∈ reads /\ 0 <= i < Z.of_nat (String.length read) - k /\
                 e = kmer_pair read k i.
Proof.
  unfold all_edges, read_edges, py_range. rewrite elem_of_concat. split.
  - intros (l & He & (read & -> & Hr)%list_elem_of_fmap).
    apply list_elem_of_fmap in He as (i & -> & (n & -> & Hn)%list_elem_of_fmap).
    apply elem_of_seq in Hn. exists read, (Z.of_nat n). split; [done|]. split; [lia|done].
  - intros (read & i & Hr & Hi & ->).
    exists (kmer_pair read k <$>
              (Z.of_nat <$> seq 0 (Z.to_nat (Z.of_nat (String.length read) - k)))).
    split.
    + apply list_elem_of_fmap. exists i. split; [done|].
      apply list_elem_of_fmap. exists (Z.to_nat i). split; [lia|].
      apply elem_of_seq. lia.
    + apply list_elem_of_fmap. by exists read.
Qed.
End builder_more.

(** ** Substrings *)

Lemma length_substring (s : string) : forall n m : nat,
  (n + m <= String.length s)%nat -> String.length (substring n m s) = m.
Proof.
  induction s as [|c s IH]; intros [|n] [|m] H; simpl in *; try lia; try done.
  - f_equal. apply IH. lia.
  - apply IH. lia.
  - apply IH. lia.
Qed.

Lemma substring_substring (s : string) : forall n m a b : nat,
  (a + b <= m)%nat -> (n + m <= String.length s)%nat ->
  substring a b (substring n m s) = substring (n + a) b s.
Proof.
  induction s as [|c s IH]; intros n m a b Hab Hnm.
  - simpl in Hnm. assert (n = 0 /\ m = 0 /\ a = 0 /\ b = 0)%nat as (-> & -> & -> & ->) by lia.
    done.
  - destruct n as [|n].
    + destruct m as [|m]; [by assert (a = 0 /\ b = 0)%nat as [-> ->] by lia|].
      simpl. destruct a as [|a].
      * destruct b as [|b]; [done|]. simpl. f_equal.
        rewrite (IH 0%nat m 0%nat b); [done|lia|simpl in Hnm; lia].
      * simpl. rewrite (IH 0%nat m a b); [done|lia|simpl in Hnm; lia].
    + simpl. apply IH; [done|simpl in Hnm; lia].
Qed.

(** The slices of a k-mer pair inside the read are plain substrings. *)
Lemma kmer_pair_substring read k i :
  0 <= k -> 0 <= i < Z.of_nat (String.length read) - k ->
  kmer_pair read k i =
    (substring (Z.to_nat i) (Z.to_nat k) read,
     substring (S (Z.to_nat i)) (Z.to_nat k) read).
Proof.
  intros Hk Hi. unfold kmer_pair, slice, slice_index.
  repeat match goal with |- context [?a <? 0] =>
    destruct (Z.ltb_spec a 0); [lia|] end.
  rewrite !Z.min_l by lia. f_equal; f_equal; lia.
Qed.

(** ** Order, degrees, keys and k-mers of a built graph *)

(** X1: the keys of the adjacency map are the distinct source k-mers in the
    order of their first occurrence in the reads, and the adjacency list of
    a node holds the destinations of its edge occurrences in reading
    order. *)
Theorem adjacency_in_reading_order (reads : list string) (k : Z) :
  let g := build_debruijn_graph reads k in
  Dict.keys (adj g) = first_seen (all_edges reads k).*1 /\
  forall x, succs g x = outs (all_edges reads k) x.
Proof.
  simpl. rewrite build_graph_of. split; [apply keys_adj_graph_of|].
  intros x. apply succs_graph_of.
Qed.

(** X2: in a built graph the outdegree entry of a node is the length of its
    adjacency list and its indegree entry is the number of its occurrences
    in all adjacency lists (0 for a missing entry or list). *)
Theorem node_degrees (reads : list string) (k : Z) (x : node) :
  let g := build_debruijn_graph reads k in
  dout g x = Z.of_nat (length (succs g x)) /\
  din g x = Zsum (count_in x <$> Dict.values (adj g)).
Proof.
  simpl. rewrite build_graph_of. split.
  - by rewrite dout_graph_of, succs_graph_of, length_outs.
  - by rewrite din_graph_of, Zsum_count_graph_of.
Qed.

(** X3: the two degree maps of a built graph have the same keys, namely the
    nodes that occur in a recorded edge, and no adjacency list is empty. *)
Theorem degree_key_sets (reads : list string) (k : Z) (x : node) :
  let g := build_debruijn_graph reads k in
  (x ∈ Dict.keys (indeg g) <-> x ∈ Dict.keys (outdeg g)) /\
  (x ∈ Dict.keys (indeg g) <->
     x ∈ Dict.keys (adj g) \/ exists u, has_edge g u x) /\
  (forall l, Dict.get x (adj g) = Some l -> l <> []).
Proof.
  simpl. rewrite build_graph_of. set (es := all_edges reads k).
  rewrite !elem_of_keys, get_indeg_graph_of, get_outdeg_graph_of, get_adj_graph_of.
  split; [|split].
  - by case_decide.
  - split.
    + case_decide as H; [|by intros [? ?]]. intros _.
      destruct H as [H|H]; [left; rewrite decide_True by done; by eexists|right].
      apply list_elem_of_fmap in H as ([u y] & -> & Hin).
      exists u. by apply has_edge_graph_of.
    + intros H. rewrite decide_True; [by eexists|].
      destruct H as [H|[u H%has_edge_graph_of%elem_of_edge_snd]]; [|by right].
      left. case_decide; [done|]. by destruct H.
  - intros l. case_decide as H; [|done]. intros [= <-] Hnil.
    apply count_src_pos in H. rewrite <- length_outs, Hnil in H. simpl in H. lia.
Qed.

(** X4: building from the concatenation of two read lists merges the two
    graphs: adjacency lists are concatenated and degrees are added. *)
Theorem build_app (rs1 rs2 : list string) (k : Z) (x : node) :
  succs (build_debruijn_graph (rs1 ++ rs2) k) x =
    succs (build_debruijn_graph rs1 k) x ++ succs (build_debruijn_graph rs2 k) x /\
  din (build_debruijn_graph (rs1 ++ rs2) k) x =
    din (build_debruijn_graph rs1 k) x + din (build_debruijn_graph rs2 k) x /\
  dout (build_debruijn_graph (rs1 ++ rs2) k) x =
    dout (build_debruijn_graph rs1 k) x + dout (build_debruijn_graph rs2 k) x.
Proof.
  rewrite !build_graph_of, all_edges_app.
  rewrite !succs_graph_of, !din_graph_of, !dout_graph_of.
  by rewrite outs_app, count_dst_app, count_src_app.
Qed.

Lemma edge_kmer_lengths (reads : list string) (k : Z) (u v : node) :
  0 <= k ->
  has_edge (build_debruijn_graph reads k) u v ->
  String.length u = Z.to_nat k /\ String.length v = Z.to_nat k.
Proof.
  intros Hk. rewrite build_graph_of, has_edge_graph_of.
  intros (read & i & _ & Hi & He)%elem_of_all_edges.
  rewrite kmer_pair_substring in He by done. injection He as -> ->.
  split; apply length_substring; lia.
Qed.

(** X5: for k >= 0 every node of a built graph, source or destination of a
    recorded edge, is a string of exactly k characters. *)
Theorem kmer_length (reads : list string) (k : Z) (u v : node) :
  0 <= k ->
  has_edge (build_debruijn_graph reads k) u v ->
  String.length u = Z.to_nat k /\ String.length v = Z.to_nat k.
Proof.
  intros Hk Huv. destruct (edge_kmer_lengths reads k u v Hk Huv) as [Hu Hv].
  by split.
Qed.

Lemma kmer_length_witness :
  String.length "AAA" = Z.to_nat 3 /\ String.length "AAC" = Z.to_nat 3.
Proof.
  apply (kmer_length ["AAAAC"; "AAACG"]%string 3 "AAA"%string "AAC"%string); [lia|].
  vm_compute. right. left.
Defined.

(** X6: for k > 0 every recorded edge u -> v of a built graph is a de Bruijn
    edge: [u[1:] == v[:k-1]], the last k-1 characters of u are the first k-1
    characters of v. *)
Theorem kmer_overlap (reads : list string) (k : Z) (u v : node) :
  0 < k ->
  has_edge (build_debruijn_graph reads k) u v ->
  slice u 1 k = slice v 0 (k - 1).
Proof.
  intros Hk Huv.
  destruct (edge_kmer_lengths reads k u v ltac:(lia) Huv) as [Hu Hv].
  revert Huv. rewrite build_graph_of, has_edge_graph_of.
  intros (read & i & _ & Hi & He)%elem_of_all_edges.
  rewrite kmer_pair_substring in He by lia. injection He as Eu Ev.
  unfold slice, slice_index. rewrite Hu, Hv.
  repeat match goal with |- context [?a <? 0] =>
    destruct (Z.ltb_spec a 0); [lia|] end.
  rewrite !Z.min_l by lia.
  replace (Z.to_nat (k - 1)) with (Z.to_nat k - 1)%nat by lia.
  replace (Z.to_nat (k - 1 - 0)) with (Z.to_nat k - 1)%nat by lia.
  replace (Z.to_nat 1) with 1%nat by lia. replace (Z.to_nat 0) with 0%nat by lia.
  subst u v. rewrite !substring_substring by lia. f_equal. lia.
Qed.

Lemma kmer_overlap_witness : slice "AAA" 1 3 = slice "AAC" 0 (3 - 1).
Proof.
  apply (kmer_overlap ["AAAAC"; "AAACG"]%string 3 "AAA"%string "AAC"%string); [lia|].
  vm_compute. right. left.
Defined.

(** * Shape and order of the unitigs, on any graph *)

Section unitig_order.
Variable g : graph.
Implicit Types (u v w t : node) (fuel : nat) (T : list edge).

Lemma walk_follows fuel : forall u path visited t path' visited',
  walk g fuel u path visited = Ok (t, path', visited') ->
  exists l, path' ++ [t] = path ++ u :: l /\ follows g (u :: l).
Proof.
  induction fuel as [|fuel IH]; intros u path visited t path' visited' Hw;
    simpl in Hw; [done|].
  destruct (interior g u) eqn:Hi.
  - destruct (succs g u) as [|n l0] eqn:Hs; [done|].
    destruct (IH _ _ _ _ _ _ Hw) as (l & Hp & Hf).
    exists (n :: l). split; [by rewrite Hp, <- app_assoc|].
    simpl. by rewrite Hs.
  - injection Hw as <- <- <-. by exists [].
Qed.

Lemma walk_keeps fuel : forall u path visited t path' visited',
  walk g fuel u path visited = Ok (t, path', visited') ->
  forall e, e ∈ visited -> e ∈ visited'.
Proof.
  induction fuel as [|fuel IH]; intros u path visited t path' visited' Hw e He;
    simpl in Hw; [done|].
  destruct (interior g u); [|by simplify_eq].
  destruct (succs g u) as [|n l0]; [done|].
  apply (IH _ _ _ _ _ _ Hw). apply elem_of_union. by right.
Qed.

Lemma scan_neighbors_tally fuel v :
  v ∈ anchors g ->
  forall ws visited unitigs T visited' unitigs',
  (forall w, w ∈ ws -> w ∈ succs g v) ->
  tally g unitigs visited T ->
  scan_neighbors g fuel v ws visited unitigs = Ok (visited', unitigs') ->
  tally g unitigs' visited' (T ++ (pair v <$> ws)).
Proof.
  intros Hv. induction ws as [|w ws IH]; intros visited unitigs T visited' unitigs' Hws Ht Hr.
  { simpl in Hr. simplify_eq. by rewrite fmap_nil, app_nil_r. }
  assert (forall w, w ∈ ws -> w ∈ succs g v) as Hws' by (intros; apply Hws; by right).
  rewrite fmap_cons, (cons_middle (v, w)), app_assoc.
  simpl in Hr. destruct Ht as [Hsh Hst Hin Hout].
  destruct (decide (_ ∈ visited)) as [Hvis|Hvis].
  - refine (IH _ _ _ _ _ Hws' _ Hr).
    destruct (Hout _ Hvis) as [Hi|Hi].
    { simpl in Hi. rewrite (anchors_not_interior g v Hv) in Hi. done. }
    split; rewrite ?first_seen_snoc, ?decide_True by done; done.
  - destruct (walk g fuel w [v] _) as [[[t path] vis1]| |] eqn:Ew; [|done..].
    assert ((v, w) ∉ first_seen T) as Hnew by (intros H; by apply Hvis, Hin).
    destruct (walk_follows _ _ _ _ _ _ _ Ew) as (l & Hp & Hf).
    refine (IH _ _ _ _ _ Hws' _ Hr).
    split; rewrite ?first_seen_snoc, ?decide_False by done.
    + apply Forall_app. split; [done|]. apply Forall_singleton.
      exists v, w, l. split; [by rewrite Hp|]. split; [done|].
      split; [apply Hws; left|done].
    + rewrite !fmap_app, Hst, Hp. done.
    + intros e He. apply (walk_keeps _ _ _ _ _ _ _ Ew).
      apply elem_of_union.
      apply elem_of_app in He as [He|He%list_elem_of_singleton]; [right; by apply Hin|].
      left. by apply elem_of_singleton.
    + intros e He.
      destruct (walk_adds_interior g _ _ _ _ _ _ _ Ew e He) as [He'|?]; [|by left].
      apply elem_of_union in He' as [He'%elem_of_singleton|He'].
      * right. apply elem_of_app. right. by apply list_elem_of_singleton.
      * destruct (Hout e He'); [by left|right]. apply elem_of_app. by left.
Qed.

Lemma scan_anchors_tally fuel :
  forall vs visited unitigs T visited' unitigs',
  (forall v, v ∈ vs -> v ∈ anchors g) ->
  tally g unitigs visited T ->
  scan_anchors g fuel vs visited unitigs = Ok (visited', unitigs') ->
  tally g unitigs' visited' (T ++ anchor_edges g vs).
Proof.
  induction vs as [|v vs IH]; intros visited unitigs T visited' unitigs' Hvs Ht Hr.
  { simpl in Hr. simplify_eq. unfold anchor_edges. simpl. by rewrite app_nil_r. }
  simpl in Hr.
  destruct (scan_neighbors g fuel v _ _ _) as [[vis1 us1]| |] eqn:En; [|done..].
  unfold anchor_edges. rewrite fmap_cons. simpl. rewrite app_assoc.
  refine (IH _ _ _ _ _ (fun v' Hv' => Hvs v' ltac:(by right)) _ Hr).
  apply (scan_neighbors_tally fuel v (Hvs v ltac:(left)) _ _ _ _ _ _ ltac:(done) Ht En).
Qed.

Lemma unitigs_of_tally fuel us :
  unitigs_of g fuel = Ok us ->
  Forall (unitig_shape g) us /\
  (fun p => head (pairs p)) <$> us = Some <$> first_seen (anchor_edges g (anchors g)).
Proof.
  unfold unitigs_of.
  destruct (scan_anchors g fuel _ _ _) as [[vis us']| |] eqn:Es; [|done..].
  intros [= <-].
  assert (tally g [] ∅ []) as Ht0.
  { split; [constructor|done| |].
    - by intros e ?%elem_of_nil.
    - by intros e ?%not_elem_of_empty. }
  by destruct (scan_anchors_tally fuel _ _ _ [] _ _ (fun v Hv => Hv) Ht0 Es)
    as [Hsh Hst _ _].
Qed.
End unitig_order.

(** X7: every unitig a run returns, on any graph, is an anchor followed by
    one of its neighbors and then by the first successors of nodes that pass
    the loop condition, up to the first node that fails it; in particular it
    has at least two nodes. *)
Theorem unitig_shapes (g g' : graph) (fuel : nat) (us : list (list node)) :
  find_unitigs fuel g = (Ok us, g') -> Forall (unitig_shape g) us.
Proof.
  intros Hrun.
  destruct (find_unitigs_sim g g fuel (same_view_refl g) eq_refl) as (g1 & H1 & _).
  rewrite Hrun in H1. injection H1 as Hus _.
  by apply (unitigs_of_tally g fuel us).
Qed.

Lemma unitig_shapes_witness :
  Forall (unitig_shape (build_debruijn_graph ["ABCDEB"%string] 1))
         [["A"; "B"]; ["B"; "C"; "D"; "E"; "B"]]%string.
Proof.
  apply (unitig_shapes _ (build_debruijn_graph ["ABCDEB"%string] 1) 5%nat).
  reflexivity.
Defined.

(** X8: the unitigs a run returns, on any graph, are in discovery order
    with one unitig per distinct edge out of an anchor: their first pairs
    are the edges out of the anchors, anchor by anchor in key order and
    neighbor by neighbor in list order, each kept at its first occurrence. *)
Theorem unitigs_in_discovery_order (g g' : graph) (fuel : nat)
    (us : list (list node)) :
  find_unitigs fuel g = (Ok us, g') ->
  (fun p => head (pairs p)) <$> us =
    Some <$> first_seen (anchor_edges g (anchors g)).
Proof.
  intros Hrun.
  destruct (find_unitigs_sim g g fuel (same_view_refl g) eq_refl) as (g1 & H1 & _).
  rewrite Hrun in H1. injection H1 as Hus _.
  by apply (unitigs_of_tally g fuel us).
Qed.

Lemma unitigs_in_discovery_order_witness :
  (fun p => head (pairs p)) <$>
    [["AAA"; "AAA"]; ["AAA"; "AAC"]; ["AAC"; "ACG"]]%string =
  Some <$> first_seen
    (anchor_edges (build_debruijn_graph ["AAAAC"; "AAACG"]%string 3)
       (anchors (build_debruijn_graph ["AAAAC"; "AAACG"]%string 3))).
Proof.
  apply (unitigs_in_discovery_order _
           (build_debruijn_graph ["AAAAC"; "AAACG"]%string 3) 4%nat).
  reflexivity.
Defined.

(** * What a run does to the store *)

Section store_growth.
Implicit Types (g : graph) (x u v : node).

Lemma extends_refl {V} (dflt : V) (d : dict V) : extends dflt d d.
Proof. exists []. by rewrite app_nil_r. Qed.

Lemma extends_trans {V} (dflt : V) (d1 d2 d3 : dict V) :
  extends dflt d1 d2 -> extends dflt d2 d3 -> extends dflt d1 d3.
Proof.
  intros (l1 & -> & H1) (l2 & -> & H2). exists (l1 ++ l2).
  split; [by rewrite app_assoc|by apply Forall_app].
Qed.

Lemma extends_getitem {V} (dflt : V) k (d : dict V) :
  extends dflt d (Dict.getitem dflt k d).2.
Proof.
  unfold Dict.getitem. destruct (Dict.get k d) eqn:E; [apply extends_refl|].
  simpl. rewrite (keys_set_absent d k dflt E). exists [(k, dflt)].
  split; [done|]. by apply Forall_singleton.
Qed.

Lemma graph_extends_refl g : graph_extends g g.
Proof. repeat split; apply extends_refl. Qed.

Lemma graph_extends_trans g1 g2 g3 :
  graph_extends g1 g2 -> graph_extends g2 g3 -> graph_extends g1 g3.
Proof.
  intros (A1 & I1 & O1) (A2 & I2 & O2). repeat split; by eapply extends_trans.
Qed.

Lemma grows_ret {A} (a : A) : grows (ret a).
Proof. intros g. apply graph_extends_refl. Qed.

Lemma grows_raise {A} : grows (@raise_IndexError A).
Proof. intros g. apply graph_extends_refl. Qed.

Lemma grows_out_of_fuel {A} : grows (@out_of_fuel A).
Proof. intros g. apply graph_extends_refl. Qed.

Lemma grows_bind {A B} (m : M A) (f : A -> M B) :
  grows m -> (forall a, grows (f a)) -> grows (bind m f).
Proof.
  intros Hm Hf g. unfold bind. specialize (Hm g).
  destruct (m g) as [[a| |] g1]; simpl in *; [|done..].
  eapply graph_extends_trans; [done|apply Hf].
Qed.

Lemma grows_read_indeg x : grows (read_indeg x).
Proof.
  intros g. unfold read_indeg.
  pose proof (extends_getitem 0 x (indeg g)) as H.
  destruct (Dict.getitem 0 x (indeg g)). repeat split; try apply extends_refl. done.
Qed.

Lemma grows_read_outdeg x : grows (read_outdeg x).
Proof.
  intros g. unfold read_outdeg.
  pose proof (extends_getitem 0 x (outdeg g)) as H.
  destruct (Dict.getitem 0 x (outdeg g)). repeat split; try apply extends_refl. done.
Qed.

Lemma grows_read_adj x : grows (read_adj x).
Proof.
  intros g. unfold read_adj.
  pose proof (extends_getitem [] x (adj g)) as H.
  destruct (Dict.getitem [] x (adj g)). repeat split; try apply extends_refl. done.
Qed.

Lemma grows_is_anchor v : grows (is_anchor v).
Proof.
  unfold is_anchor.
  repeat (first [apply grows_bind; [apply grows_read_indeg || apply grows_read_outdeg|intros ?]
                |apply grows_ret
                |match goal with |- grows (if ?b then _ else _) => destruct b end]).
Qed.

Lemma grows_select_anchors ks : grows (select_anchors ks).
Proof.
  induction ks as [|v ks IH]; simpl; [apply grows_ret|].
  apply grows_bind; [apply grows_is_anchor|intros b].
  apply grows_bind; [done|intros rest]. apply grows_ret.
Qed.

Lemma grows_while_loop fuel : forall u path visited,
  grows (while_loop fuel u path visited).
Proof.
  induction fuel as [|fuel IH]; intros u path visited; simpl; [apply grows_out_of_fuel|].
  apply grows_bind; [apply grows_read_indeg|intros i].
  destruct (i =? 1); [|apply grows_ret].
  apply grows_bind; [apply grows_read_outdeg|intros o].
  destruct (o =? 1); [|apply grows_ret].
  apply grows_bind; [apply grows_read_adj|intros [|n l]]; [apply grows_raise|apply IH].
Qed.

Lemma grows_for_neighbors fuel v ws : forall visited unitigs,
  grows (for_neighbors fuel v ws visited unitigs).
Proof.
  induction ws as [|w ws IH]; intros visited unitigs; simpl; [apply grows_ret|].
  destruct (decide (_ ∈ visited)); [apply IH|].
  apply grows_bind; [apply grows_while_loop|intros [[u path] vis]]. apply IH.
Qed.

Lemma grows_for_anchors fuel vs : forall visited unitigs,
  grows (for_anchors fuel vs visited unitigs).
Proof.
  induction vs as [|v vs IH]; intros visited unitigs; simpl; [apply grows_ret|].
  apply grows_bind; [apply grows_read_adj|intros ws].
  apply grows_bind; [apply grows_for_neighbors|intros [vis us]]. apply IH.
Qed.

Lemma grows_find_unitigs fuel : grows (find_unitigs fuel).
Proof.
  unfold find_unitigs.
  apply grows_bind; [intros g; apply graph_extends_refl|intros ks].
  apply grows_bind; [apply grows_select_anchors|intros vs].
  apply grows_bind; [apply grows_for_anchors|intros [vis us]]. apply grows_ret.
Qed.
End store_growth.

(** X9: on any graph and with any fuel, a run changes the three
    dictionaries only by appending entries that hold the default value (0
    for a degree, the empty list for an adjacency list): no entry is removed,
    changed or moved.  A run that returns leaves the adjacency map as it
    was. *)
Theorem find_unitigs_appends_defaults (g : graph) (fuel : nat) :
  graph_extends g (find_unitigs fuel g).2 /\
  (forall us, (find_unitigs fuel g).1 = Ok us -> adj (find_unitigs fuel g).2 = adj g).
Proof.
  split; [apply grows_find_unitigs|].
  destruct (find_unitigs_sim g g fuel (same_view_refl g) eq_refl) as (g1 & -> & _ & A1).
  simpl. intros us Hus. by apply (A1 us).
Qed.

(** * Read sampling *)

Section sampling.
Variables (rnd : nat -> Z) (genome : string) (read_len : Z).

Lemma randint_range a b r : a <= b -> exists n, randint a b r = Some n /\ a <= n <= b.
Proof.
  intros H. unfold randint. destruct (Z.leb_spec a b); [|lia].
  eexists. split; [done|]. pose proof (Z.mod_pos_bound r (b - a + 1)). lia.
Qed.

Lemma sample_loop_sampled :
  read_len <= Z.of_nat (String.length genome) ->
  forall n i reads, exists new,
    sample_loop rnd genome read_len i n reads = Sampled (reads ++ new) /\
    length new = n /\
    Forall (fun r => exists start,
              0 <= start <= Z.of_nat (String.length genome) - read_len /\
              r = slice genome start (start + read_len)) new.
Proof.
  intros Hlen. induction n as [|n IH]; intros i reads.
  { exists []. by rewrite app_nil_r. }
  simpl.
  destruct (randint_range 0 (Z.of_nat (String.length genome) - read_len) (rnd i))
    as (start & -> & Hs); [lia|].
  destruct (IH (S i) (reads ++ [slice genome start (start + read_len)]))
    as (new & -> & Hn & Hf).
  exists (slice genome start (start + read_len) :: new).
  split; [by rewrite <- app_assoc|]. split; [simpl; lia|].
  constructor; [by exists start|done].
Qed.

Lemma length_slice_inside (start : Z) :
  0 <= read_len -> 0 <= start <= Z.of_nat (String.length genome) - read_len ->
  Z.of_nat (String.length (slice genome start (start + read_len))) = read_len.
Proof.
  intros Hr Hs. unfold slice, slice_index.
  repeat match goal with |- context [?a <? 0] =>
    destruct (Z.ltb_spec a 0); [lia|] end.
  rewrite !Z.min_l by lia. rewrite length_substring; lia.
Qed.
End sampling.

Lemma generate_reads_sampled (rnd : nat -> Z) (genome : string)
    (read_len num_reads : Z) :
  0 <= read_len <= Z.of_nat (String.length genome) ->
  exists reads,
    generate_reads rnd genome read_len num_reads = Sampled reads /\
    Z.of_nat (length reads) = Z.max 0 num_reads /\
    forall r, r ∈ reads ->
      Z.of_nat (String.length r) = read_len /\
      exists start,
        0 <= start <= Z.of_nat (String.length genome) - read_len /\
        r = slice genome start (start + read_len).
Proof.
  intros Hr. unfold generate_reads.
  destruct (sample_loop_sampled rnd genome read_len ltac:(lia) (Z.to_nat num_reads) 0%nat [])
    as (reads & -> & Hn & Hf).
  exists reads. split; [done|]. split; [lia|].
  intros r Hin. destruct (proj1 (Forall_forall _ _) Hf r Hin) as (start & Hs & ->).
  split; [apply length_slice_inside; lia|by exists start].
Qed.

(** X10: when 0 <= read_len <= len(genome), whatever the random draws,
    [generate_reads] returns max(0, num_reads) reads, each of length
    read_len and each a slice [genome[start:start+read_len]] of the genome
    that lies inside it. *)
Theorem generate_reads_ok (rnd : nat -> Z) (genome : string)
    (read_len num_reads : Z) :
  0 <= read_len <= Z.of_nat (String.length genome) ->
  exists reads,
    generate_reads rnd genome read_len num_reads = Sampled reads /\
    Z.of_nat (length reads) = Z.max 0 num_reads /\
    forall r, r ∈ reads ->
      Z.of_nat (String.length r) = read_len /\
      exists start,
        0 <= start <= Z.of_nat (String.length genome) - read_len /\
        r = slice genome start (start + read_len).
Proof.
  intros Hr.
  destruct (generate_reads_sampled rnd genome read_len num_reads Hr)
    as (reads & Hg & Hn & Hall).
  exists reads. split; [done|]. split; [done|]. exact Hall.
Qed.

Lemma generate_reads_ok_witness :
  exists reads,
    generate_reads (fun i => Z.of_nat i * 7) "ACGTACGT"%string 3 4 = Sampled reads /\
    Z.of_nat (length reads) = Z.max 0 4.
Proof.
  destruct (generate_reads_ok (fun i => Z.of_nat i * 7) "ACGTACGT"%string 3 4)
    as (reads & H1 & H2 & _); [simpl; lia|].
  by exists reads.
Defined.

(** X11: [generate_reads] raises [ValueError] exactly when a read is asked
    for that is longer than the genome: read_len > len(genome) and
    num_reads > 0.  With num_reads <= 0 it returns the empty list. *)
Theorem generate_reads_value_error (rnd : nat -> Z) (genome : string)
    (read_len num_reads : Z) :
  (generate_reads rnd genome read_len num_reads = ValueError <->
     Z.of_nat (String.length genome) < read_len /\ 0 < num_reads) /\
  (num_reads <= 0 -> generate_reads rnd genome read_len num_reads = Sampled []).
Proof.
  unfold generate_reads. split; [split|].
  - intros H. destruct (Z.ltb_spec (Z.of_nat (String.length genome)) read_len) as [Hl|Hl].
    + split; [done|]. destruct (Z.to_nat num_reads) eqn:E; [done|lia].
    + destruct (sample_loop_sampled rnd genome read_len Hl (Z.to_nat num_reads) 0%nat [])
        as (new & Hs & _). congruence.
  - intros [Hl Hn]. destruct (Z.to_nat num_reads) as [|n] eqn:E; [lia|].
    simpl. unfold randint. by destruct (Z.leb_spec 0 (Z.of_nat (String.length genome) - read_len)); [lia|].
  - intros Hn. by replace (Z.to_nat num_reads) with 0%nat by lia.
Qed.

Lemma Zsum_const_reads (reads : list string) (read_len k : Z) :
  (forall r, r ∈ reads -> Z.of_nat (String.length r) = read_len) ->
  Zsum ((fun r => Z.max 0 (Z.of_nat (String.length r) - k)) <$> reads) =
  Z.of_nat (length reads) * Z.max 0 (read_len - k).
Proof.
  induction reads as [|r reads IH]; intros H; csimpl; [lia|].
  rewrite IH by (intros; apply H; by right). rewrite (H r) by left. lia.
Qed.

(** X12: the pipeline of main.py, sampling then building: when
    0 <= read_len <= len(genome), the edge count of the graph built from the
    sampled reads is max(0, num_reads) * max(0, read_len - k), whatever the
    random draws and for every k. *)
Theorem sampled_edge_count (rnd : nat -> Z) (genome : string)
    (read_len num_reads k : Z) (reads : list string) :
  0 <= read_len <= Z.of_nat (String.length genome) ->
  generate_reads rnd genome read_len num_reads = Sampled reads ->
  edge_count (build_debruijn_graph reads k) =
    Z.max 0 num_reads * Z.max 0 (read_len - k).
Proof.
  intros Hr Hg.
  destruct (generate_reads_sampled rnd genome read_len num_reads Hr)
    as (reads' & Hg' & Hn & Hall).
  rewrite Hg in Hg'. injection Hg' as <-.
  rewrite build_graph_of.
  pose proof (totals_graph_of (all_edges reads k)) as (_ & _ & ->).
  rewrite length_all_edges, (Zsum_const_reads reads read_len k), Hn; [done|].
  intros r Hin. by apply Hall.
Qed.

Lemma sampled_edge_count_witness :
  edge_count (build_debruijn_graph ["ACG"; "CGT"; "GTA"; "TAC"]%string 2) =
    Z.max 0 4 * Z.max 0 (3 - 2).
Proof.
  apply (sampled_edge_count (fun i => Z.of_nat i * 7) "ACGTACGT"%string 3 4 2);
    [simpl; lia|reflexivity].
Defined.

(** * Runs that never return *)

Section never_returns.
Variables (g : graph) (stuck : node -> Prop).
Hypothesis walk_stuck : forall u fuel path visited r,
  stuck u -> walk g fuel u path visited <> Ok r.
Implicit Types (u v w : node) (fuel : nat).

Lemma scan_neighbors_stuck fuel v :
  interior g v = false ->
  forall ws visited unitigs visited' unitigs',
  safe_for g stuck visited ->
  scan_neighbors g fuel v ws visited unitigs = Ok (visited', unitigs') ->
  safe_for g stuck visited' /\ forall w, w ∈ ws -> ~ stuck w.
Proof.
  intros Hv. induction ws as [|w ws IH]; intros visited unitigs visited' unitigs' Hs Hr.
  { simpl in Hr. simplify_eq. split; [done|]. by intros w ?%elem_of_nil. }
  simpl in Hr. destruct (decide (_ ∈ visited)) as [Hin|Hnin].
  - destruct (IH _ _ _ _ Hs Hr) as [Hs' Hall]. split; [done|].
    intros w' [->|Hw']%elem_of_cons; [|by apply Hall].
    destruct (Hs v w Hin); [congruence|done].
  - destruct (walk g fuel w [v] _) as [[[u path] vis1]| |] eqn:Ew; [|done..].
    assert (~ stuck w) as Hw by (intros Hd; by apply (walk_stuck _ _ _ _ _ Hd) in Ew).
    assert (safe_for g stuck vis1) as Hs1.
    { intros a b Hab.
      destruct (walk_adds_interior g _ _ _ _ _ _ _ Ew (a, b) Hab)
        as [[[= -> ->]%elem_of_singleton|Hin]%elem_of_union|Hin]; auto. }
    destruct (IH _ _ _ _ Hs1 Hr) as [Hs' Hall]. split; [done|].
    intros w' [->|Hw']%elem_of_cons; [done|by apply Hall].
Qed.

Lemma scan_anchors_stuck fuel :
  forall vs visited unitigs visited' unitigs',
  (forall v, v ∈ vs -> interior g v = false) ->
  safe_for g stuck visited ->
  scan_anchors g fuel vs visited unitigs = Ok (visited', unitigs') ->
  safe_for g stuck visited' /\ forall v w, v ∈ vs -> has_edge g v w -> ~ stuck w.
Proof.
  induction vs as [|v vs IH]; intros visited unitigs visited' unitigs' Hvs Hs Hr.
  { simpl in Hr. simplify_eq. split; [done|]. by intros v w ?%elem_of_nil. }
  simpl in Hr.
  destruct (scan_neighbors g fuel v _ _ _) as [[vis1 us1]| |] eqn:En; [|done..].
  destruct (scan_neighbors_stuck fuel v (Hvs v ltac:(left)) _ _ _ _ _ Hs En) as [Hs1 Hall1].
  destruct (IH _ _ _ _ (fun v' Hv' => Hvs v' ltac:(by right)) Hs1 Hr) as [Hs' Hall].
  split; [done|].
  intros v' w [->|Hv']%elem_of_cons Hvw; [by apply Hall1|by apply (Hall v')].
Qed.

Lemma unitigs_of_stuck fuel v w us :
  v ∈ anchors g -> has_edge g v w -> stuck w -> unitigs_of g fuel <> Ok us.
Proof.
  intros Hv Hvw Hd. unfold unitigs_of.
  destruct (scan_anchors g fuel _ _ _) as [[vis us']| |] eqn:Es; [|done..].
  destruct (scan_anchors_stuck fuel _ _ _ _ _ (anchors_not_interior g)
              (fun a b H => False_ind _ (not_elem_of_empty _ H)) Es) as [_ Hall].
  by destruct (Hall v w Hv Hvw).
Qed.
End never_returns.

Lemma walk_trapped g u :
  trapped g u -> forall fuel path visited, walk g fuel u path visited = OutOfFuel.
Proof.
  intros (S & Hu & HS) fuel. revert u Hu.
  induction fuel as [|fuel IH]; intros u Hu path visited; [done|].
  destruct (HS u Hu) as (Hi & n & l & Hs & Hn). simpl. rewrite Hi, Hs. by apply IH.
Qed.

(** X13: when the degree maps let the [while] loop into a set of nodes
    that all pass the loop condition and whose first successors stay in the
    set (a cycle that the degrees do not show), the loop started there uses
    up any fuel, and when such a node is a neighbor of an anchor no run of
    the extractor returns a list of unitigs: the loop does not consult
    [visited_edges]. *)
Theorem interior_cycle_never_returns (g : graph) (v w : node) :
  v ∈ anchors g -> has_edge g v w -> trapped g w ->
  (forall fuel path visited, (while_loop fuel w path visited g).1 = OutOfFuel) /\
  (forall fuel us, (find_unitigs fuel g).1 <> Ok us).
Proof.
  intros Hv Hvw Ht. split.
  - intros fuel path visited.
    destruct (while_loop_sim g fuel w path visited g (same_view_refl g)) as (g' & -> & _).
    by apply walk_trapped.
  - intros fuel us.
    destruct (find_unitigs_sim g g fuel (same_view_refl g) eq_refl) as (g1 & -> & _).
    apply (unitigs_of_stuck g (trapped g)) with (v := v) (w := w); try done.
    intros u f path visited r Hu. by rewrite walk_trapped.
Qed.

Lemma interior_cycle_never_returns_witness :
  (find_unitigs 50
     (Graph [("S", ["A"]); ("A", ["B"]); ("B", ["A"])]
            [("S", 0); ("A", 1); ("B", 1)]
            [("S", 1); ("A", 1); ("B", 1)])%string).1 <> Ok [].
Proof.
  set (g := (Graph [("S", ["A"]); ("A", ["B"]); ("B", ["A"])]
                   [("S", 0); ("A", 1); ("B", 1)]
                   [("S", 1); ("A", 1); ("B", 1)])%string).
  assert ("S"%string ∈ anchors g) as Ha by (vm_compute; left).
  assert (has_edge g "S"%string "A"%string) as He by (vm_compute; left).
  assert (trapped g "A"%string) as Ht.
  { exists (fun u => u = "A"%string \/ u = "B"%string). split; [by left|].
    intros u [->| ->]; (split; [reflexivity|]).
    - exists "B"%string, []. split; [reflexivity|by right].
    - exists "A"%string, []. split; [reflexivity|by left]. }
  apply (proj2 (interior_cycle_never_returns g "S"%string "A"%string Ha He Ht) 50%nat []).
Defined.

(** * Maximum subarray *)

Section ranges.
Context {S : Type}.
Implicit Types (body : S -> Z -> option S) (Inv : Z -> S -> Prop).

Lemma py_range2_nil lo hi : hi <= lo -> py_range2 lo hi = [].
Proof. intros H. unfold py_range2. by replace (Z.to_nat (hi - lo)) with 0%nat by lia. Qed.

Lemma py_range2_cons lo hi : lo < hi -> py_range2 lo hi = lo :: py_range2 (lo + 1) hi.
Proof.
  intros H. unfold py_range2.
  replace (Z.to_nat (hi - lo)) with (Datatypes.S (Z.to_nat (hi - (lo + 1)))) by lia.
  simpl. f_equal; [lia|]. rewrite <- fmap_S_seq, <- list_fmap_compose.
  apply list_fmap_ext. intros _ d _. simpl. lia.
Qed.

Lemma py_range_down_nil start stop : start <= stop -> py_range_down start stop = [].
Proof.
  intros H. unfold py_range_down.
  by replace (Z.to_nat (start - stop)) with 0%nat by lia.
Qed.

Lemma py_range_down_cons start stop :
  stop < start -> py_range_down start stop = start :: py_range_down (start - 1) stop.
Proof.
  intros H. unfold py_range_down.
  replace (Z.to_nat (start - stop)) with (Datatypes.S (Z.to_nat (start - 1 - stop))) by lia.
  simpl. f_equal; [lia|]. rewrite <- fmap_S_seq, <- list_fmap_compose.
  apply list_fmap_ext. intros _ d _. simpl. lia.
Qed.

Lemma py_range_range2 n : py_range n = py_range2 0 n.
Proof.
  unfold py_range, py_range2. rewrite Z.sub_0_r. apply list_fmap_ext. intros _ d _. lia.
Qed.

(** An ascending loop keeps an invariant indexed by the next index. *)
Lemma for_each_up body Inv lo hi s :
  lo <= hi -> Inv lo s ->
  (forall j s, lo <= j < hi -> Inv j s -> exists s', body s j = Some s' /\ Inv (j + 1) s') ->
  exists s', for_each body (py_range2 lo hi) s = Some s' /\ Inv hi s'.
Proof.
  intros Hle. remember (Z.to_nat (hi - lo)) as n eqn:Hn.
  revert lo s Hle Hn. induction n as [|n IH]; intros lo s Hle Hn H0 Hstep.
  - assert (lo = hi) as -> by lia. rewrite py_range2_nil by lia. by exists s.
  - rewrite py_range2_cons by lia. simpl.
    destruct (Hstep lo s ltac:(lia) H0) as (s1 & -> & H1).
    apply IH; [lia|lia|done|]. intros j s2 Hj. apply Hstep. lia.
Qed.

(** A descending loop keeps an invariant indexed by the next index. *)
Lemma for_each_down body Inv start stop s :
  stop <= start -> Inv start s ->
  (forall i s, stop < i <= start -> Inv i s -> exists s', body s i = Some s' /\ Inv (i - 1) s') ->
  exists s', for_each body (py_range_down start stop) s = Some s' /\ Inv stop s'.
Proof.
  intros Hle. remember (Z.to_nat (start - stop)) as n eqn:Hn.
  revert start s Hle Hn. induction n as [|n IH]; intros start s Hle Hn H0 Hstep.
  - assert (start = stop) as -> by lia. rewrite py_range_down_nil by lia. by exists s.
  - rewrite py_range_down_cons by lia. simpl.
    destruct (Hstep start s ltac:(lia) H0) as (s1 & -> & H1).
    apply IH; [lia|lia|done|]. intros j s2 Hj. apply Hstep. lia.
Qed.
End ranges.

Section segments.
Variable arr : list Z.
Implicit Types (i j l r : Z).

Lemma Zsum_app_list (l1 l2 : list Z) : Zsum (l1 ++ l2) = Zsum l1 + Zsum l2.
Proof. induction l1; simpl; lia. Qed.

Lemma py_getitem_inside i :
  0 <= i < Z.of_nat (length arr) ->
  exists a, py_getitem arr i = Some a /\ arr !! Z.to_nat i = Some a.
Proof.
  intros H. unfold py_getitem.
  destruct (Z.leb_spec 0 i), (Z.ltb_spec i (Z.of_nat (length arr))); try lia. simpl.
  destruct (lookup_lt_is_Some_2 arr (Z.to_nat i)) as [a Ha]; [lia|]. by exists a.
Qed.

(** A segment sum is a difference of prefix sums. *)
Lemma seg_sum_prefix i j :
  0 <= i -> i <= j + 1 ->
  seg_sum arr i j = Zsum (take (Z.to_nat (j + 1)) arr) - Zsum (take (Z.to_nat i) arr).
Proof.
  intros Hi Hj. unfold seg_sum.
  replace (Z.to_nat (j + 1)) with (Z.to_nat i + Z.to_nat (j + 1 - i))%nat by lia.
  rewrite <- take_take_drop, Zsum_app_list. lia.
Qed.

Lemma prefix_succ (n : nat) a :
  arr !! n = Some a -> Zsum (take (Datatypes.S n) arr) = Zsum (take n arr) + a.
Proof. intros H. rewrite (take_S_r _ _ _ H), Zsum_app_list. simpl. lia. Qed.

Lemma seg_sum_empty i : 0 <= i -> seg_sum arr i (i - 1) = 0.
Proof. intros H. rewrite seg_sum_prefix by lia. replace (i - 1 + 1) with i by lia. lia. Qed.

Lemma seg_sum_right i j a :
  0 <= i -> i <= j -> arr !! Z.to_nat j = Some a ->
  seg_sum arr i j = seg_sum arr i (j - 1) + a.
Proof.
  intros Hi Hj Ha. rewrite !seg_sum_prefix by lia.
  replace (Z.to_nat (j + 1)) with (Datatypes.S (Z.to_nat j)) by lia.
  rewrite (prefix_succ _ a Ha). replace (j - 1 + 1) with j by lia. lia.
Qed.

Lemma seg_sum_left i j a :
  0 <= i -> i <= j -> arr !! Z.to_nat i = Some a ->
  seg_sum arr i j = a + seg_sum arr (i + 1) j.
Proof.
  intros Hi Hj Ha. rewrite !seg_sum_prefix by lia.
  replace (Z.to_nat (i + 1)) with (Datatypes.S (Z.to_nat i)) by lia.
  rewrite (prefix_succ _ a Ha). lia.
Qed.

Lemma seg_sum_split i m j :
  0 <= i -> i <= m + 1 -> m <= j ->
  seg_sum arr i j = seg_sum arr i m + seg_sum arr (m + 1) j.
Proof. intros Hi Hm Hj. rewrite !seg_sum_prefix by lia. lia. Qed.

Lemma best_of_ext (D D' : Z -> Z -> Prop) m l r :
  (forall i j, D i j <-> D' i j) -> best_of arr D m l r -> best_of arr D' m l r.
Proof.
  intros HD. destruct m as [|s]; simpl.
  - intros H i j Hd. by apply (H i j), HD.
  - intros (Hlr & Hs & Hmax). split; [by apply HD|]. split; [done|].
    intros i j Hd. by apply Hmax, HD.
Qed.

(** One more index pair, with the test [seg_sum > max_sum] of the loops. *)
Lemma best_of_add (D D' : Z -> Z -> Prop) m l r i0 j0 :
  (forall i j, D' i j <-> D i j \/ (i = i0 /\ j = j0)) ->
  best_of arr D m l r ->
  if exceeds (seg_sum arr i0 j0) m
  then best_of arr D' (Fin (seg_sum arr i0 j0)) i0 j0
  else best_of arr D' m l r /\ exists s, m = Fin s.
Proof.
  intros HD Hb. destruct m as [|s]; simpl in *.
  - split; [apply HD; by right|]. split; [done|].
    intros i j [Hd|[-> ->]]%HD; [by destruct (Hb i j)|lia].
  - destruct Hb as (Hlr & Hs & Hmax). destruct (Z.ltb_spec s (seg_sum arr i0 j0)).
    + split; [apply HD; by right|]. split; [done|].
      intros i j [Hd|[-> ->]]%HD; [|lia]. specialize (Hmax i j Hd). lia.
    + split; [|by exists s]. split; [apply HD; by left|]. split; [done|].
      intros i j [Hd|[-> ->]]%HD; [by apply Hmax|lia].
Qed.
End segments.

Section brute_force.
Variable arr : list Z.
Local Abbreviation n := (Z.of_nat (length arr)).
Implicit Types (i j l r J : Z) (m : num).

Lemma brute_force_step_ok i J cs m l r :
  0 <= i <= J -> J < n ->
  cs = seg_sum arr i (J - 1) ->
  best_of arr (seen_pairs n i J) m l r ->
  (m = NegInf -> l = 0 /\ r = 0) ->
  exists cs' m' l' r',
    brute_force_step arr i (cs, m, l, r) J = Some (cs', m', l', r') /\
    cs' = seg_sum arr i J /\
    best_of arr (seen_pairs n i (J + 1)) m' l' r' /\
    (m' = NegInf -> l' = 0 /\ r' = 0).
Proof.
  intros Hi HJ Hcs Hb H0. unfold brute_force_step.
  destruct (py_getitem_inside arr J ltac:(lia)) as (a & -> & Ha).
  assert (cs + a = seg_sum arr i J) as Hs by (rewrite (seg_sum_right arr i J a); lia || done).
  pose proof (best_of_add arr (seen_pairs n i J) (seen_pairs n i (J + 1)) m l r i J) as Hadd.
  rewrite <- Hs in Hadd.
  destruct (exceeds (cs + a) m).
  - eexists _, _, _, _. split; [done|]. split; [done|]. split; [|done].
    apply Hadd; [|done]. unfold seen_pairs. intros i' j'. lia.
  - eexists _, _, _, _. split; [done|]. split; [done|].
    destruct Hadd as [Hb' [s ->]]; [|done|by split].
    unfold seen_pairs. intros i' j'. lia.
Qed.

Lemma brute_force_row_ok i m l r :
  0 <= i < n ->
  best_of arr (seen_pairs n i i) m l r ->
  (m = NegInf -> l = 0 /\ r = 0) ->
  exists m' l' r',
    brute_force_row arr (m, l, r) i = Some (m', l', r') /\
    best_of arr (seen_pairs n (i + 1) (i + 1)) m' l' r' /\
    (m' = NegInf -> l' = 0 /\ r' = 0).
Proof.
  intros Hi Hb H0. unfold brute_force_row.
  destruct (for_each_up (brute_force_step arr i)
              (fun J st => let '(cs, m, l, r) := st in
                 cs = seg_sum arr i (J - 1) /\ best_of arr (seen_pairs n i J) m l r /\
                 (m = NegInf -> l = 0 /\ r = 0))
              i n (0, m, l, r)) as ([[[cs' m'] l'] r'] & -> & Hcs & Hb' & H0').
  - lia.
  - split; [by rewrite seg_sum_empty by lia|done].
  - intros J [[[cs1 m1] l1] r1] HJ (Hcs1 & Hb1 & H1).
    destruct (brute_force_step_ok i J cs1 m1 l1 r1) as (cs2 & m2 & l2 & r2 & -> & ? & ? & ?);
      try done; try lia.
    exists (cs2, m2, l2, r2). split; [done|]. replace (J + 1 - 1) with J by lia. done.
  - exists m', l', r'. split; [done|]. split; [|done].
    eapply best_of_ext; [|done]. unfold seen_pairs. intros i' j'. lia.
Qed.

Lemma brute_force_all :
  exists m l r,
    brute_force_max_subarray arr = Some (m, l, r) /\
    best_of arr (fun i j => 0 <= i <= j /\ j < n) m l r /\
    (m = NegInf -> l = 0 /\ r = 0).
Proof.
  unfold brute_force_max_subarray. rewrite py_range_range2.
  destruct (for_each_up (brute_force_row arr)
              (fun I st => let '(m, l, r) := st in
                 best_of arr (seen_pairs n I I) m l r /\ (m = NegInf -> l = 0 /\ r = 0))
              0 n (NegInf, 0, 0)) as ([[m l] r] & -> & Hb & H0).
  - lia.
  - split; [|done]. simpl. unfold seen_pairs. intros i j. lia.
  - intros I [[m1 l1] r1] HI (Hb1 & H1).
    destruct (brute_force_row_ok I m1 l1 r1) as (m2 & l2 & r2 & -> & ? & ?); try done.
    by exists (m2, l2, r2).
  - exists m, l, r. split; [done|]. split; [|done].
    eapply best_of_ext; [|done]. unfold seen_pairs. intros i' j'. lia.
Qed.
End brute_force.

Lemma brute_force_max_segment (arr : list Z) :
  exists res,
    brute_force_max_subarray arr = Some res /\
    (arr = [] -> res = (NegInf, 0, 0)) /\
    (arr <> [] -> max_segment arr 0 (Z.of_nat (length arr) - 1) res).
Proof.
  destruct (brute_force_all arr) as (m & l & r & Hrun & Hb & H0).
  exists (m, l, r). split; [done|]. split.
  - intros ->. destruct m as [|s]; [by destruct H0 as [-> ->]|].
    destruct Hb as [Hd _]. simpl in Hd. lia.
  - intros Hne. destruct m as [|s].
    + exfalso. apply (Hb 0 0). destruct arr; [done|]. simpl. lia.
    + destruct Hb as (Hd & Hs & Hmax). exists s, l, r.
      split; [done|]. split; [lia|]. split; [lia|]. split; [done|].
      intros i j Hi Hj. apply Hmax. lia.
Qed.

(** X14: on a list of integers [brute_force_max_subarray] raises nothing.
    On the empty list it returns [(-inf, 0, 0)]; on a non-empty list it
    returns the sum and the end indices of a segment [arr[l..r]] whose sum no
    segment of the list exceeds. *)
Theorem brute_force_correct (arr : list Z) :
  exists res,
    brute_force_max_subarray arr = Some res /\
    (arr = [] -> res = (NegInf, 0, 0)) /\
    (arr <> [] -> max_segment arr 0 (Z.of_nat (length arr) - 1) res).
Proof.
  destruct (brute_force_max_segment arr) as (res & Hrun & Hempty & Hmax).
  exists res. split; [done|]. split; [exact Hempty|exact Hmax].
Qed.

Section divide.
Variable arr : list Z.
Local Abbreviation n := (Z.of_nat (length arr)).
Implicit Types (i j l r low mid high : Z) (m : num).

Lemma crossing_left_ok low mid :
  0 <= low <= mid -> mid < n ->
  exists t s ml,
    for_each (crossing_step arr) (py_range_down mid (low - 1)) (0, NegInf, mid)
      = Some (t, Fin s, ml) /\
    low <= ml <= mid /\ s = seg_sum arr ml mid /\
    forall i, low <= i <= mid -> seg_sum arr i mid <= s.
Proof.
  intros Hl Hm.
  destruct (for_each_down (crossing_step arr)
              (fun I st => let '(t, b, a) := st in
                 t = seg_sum arr (I + 1) mid /\
                 best_of arr (fun i' j' => I < i' <= mid /\ j' = mid) b a mid)
              mid (low - 1) (0, NegInf, mid)) as ([[t b] a] & -> & Ht & Hb).
  - lia.
  - split; [rewrite seg_sum_prefix by lia; lia|]. simpl. intros i j. lia.
  - intros I [[t1 b1] a1] HI (Ht1 & Hb1). unfold crossing_step.
    destruct (py_getitem_inside arr I ltac:(lia)) as (x & -> & Hx).
    assert (t1 + x = seg_sum arr I mid) as Hs
      by (rewrite (seg_sum_left arr I mid x); lia || done).
    pose proof (best_of_add arr (fun i' j' => I < i' <= mid /\ j' = mid)
                  (fun i' j' => I - 1 < i' <= mid /\ j' = mid) b1 a1 mid I mid) as Hadd.
    rewrite <- Hs in Hadd. replace (I - 1 + 1) with I by lia.
    destruct (exceeds (t1 + x) b1).
    + eexists (_, _, _). split; [done|]. split; [done|]. apply Hadd; [|done].
      intros i' j'. lia.
    + eexists (_, _, _). split; [done|]. split; [done|].
      destruct Hadd as [Hb' _]; [|done..]. intros i' j'. lia.
  - destruct b as [|s].
    + exfalso. apply (Hb mid mid). lia.
    + destruct Hb as (Hd & Hs & Hmax). exists t, s, a. split; [done|].
      split; [lia|]. split; [done|]. intros i Hi. apply Hmax. lia.
Qed.

Lemma crossing_right_ok mid high :
  0 <= mid -> mid < high -> high < n ->
  exists t s mr,
    for_each (crossing_step arr) (py_range2 (mid + 1) (high + 1)) (0, NegInf, mid)
      = Some (t, Fin s, mr) /\
    mid < mr <= high /\ s = seg_sum arr (mid + 1) mr /\
    forall j, mid < j <= high -> seg_sum arr (mid + 1) j <= s.
Proof.
  intros Hm Hh Hn.
  destruct (for_each_up (crossing_step arr)
              (fun J st => let '(t, b, a) := st in
                 t = seg_sum arr (mid + 1) (J - 1) /\
                 best_of arr (fun i' j' => i' = mid + 1 /\ mid + 1 <= j' < J) b (mid + 1) a)
              (mid + 1) (high + 1) (0, NegInf, mid)) as ([[t b] a] & -> & Ht & Hb).
  - lia.
  - split; [by rewrite seg_sum_empty by lia|]. simpl. intros i j. lia.
  - intros J [[t1 b1] a1] HJ (Ht1 & Hb1). unfold crossing_step.
    destruct (py_getitem_inside arr J ltac:(lia)) as (x & -> & Hx).
    assert (t1 + x = seg_sum arr (mid + 1) J) as Hs
      by (rewrite (seg_sum_right arr (mid + 1) J x); lia || done).
    pose proof (best_of_add arr (fun i' j' => i' = mid + 1 /\ mid + 1 <= j' < J)
                  (fun i' j' => i' = mid + 1 /\ mid + 1 <= j' < J + 1)
                  b1 (mid + 1) a1 (mid + 1) J) as Hadd.
    rewrite <- Hs in Hadd. replace (J + 1 - 1) with J by lia.
    destruct (exceeds (t1 + x) b1).
    + eexists (_, _, _). split; [done|]. split; [done|]. apply Hadd; [|done].
      intros i' j'. lia.
    + eexists (_, _, _). split; [done|]. split; [done|].
      destruct Hadd as [Hb' _]; [|done..]. intros i' j'. lia.
  - destruct b as [|s].
    + exfalso. apply (Hb (mid + 1) (mid + 1)). lia.
    + destruct Hb as (Hd & Hs & Hmax). exists t, s, a. split; [done|].
      split; [lia|]. split; [done|]. intros j Hj. apply Hmax. lia.
Qed.

Lemma crossing_ok low mid high :
  0 <= low <= mid -> mid < high -> high < n ->
  exists s ml mr,
    max_crossing_sum arr low mid high = Returned (Fin s, ml, mr) /\
    low <= ml <= mid /\ mid < mr <= high /\ s = seg_sum arr ml mr /\
    forall i j, low <= i <= mid -> mid < j <= high -> seg_sum arr i j <= s.
Proof.
  intros Hl Hm Hh. unfold max_crossing_sum.
  destruct (crossing_left_ok low mid) as (t1 & s1 & ml & -> & Hml & Hs1 & Hmax1); [lia..|].
  destruct (crossing_right_ok mid high) as (t2 & s2 & mr & -> & Hmr & Hs2 & Hmax2); [lia..|].
  exists (s1 + s2), ml, mr. split; [done|]. split; [done|]. split; [done|].
  split.
  - rewrite (seg_sum_split arr ml mid mr) by lia. lia.
  - intros i j Hi Hj. rewrite (seg_sum_split arr i mid j) by lia.
    specialize (Hmax1 i Hi). specialize (Hmax2 j Hj). lia.
Qed.

Lemma divide_and_conquer_ok fuel : forall low high,
  0 <= low <= high -> high < n ->
  high - low + 1 <= 2 ^ Z.of_nat fuel ->
  exists res,
    divide_and_conquer (S fuel) arr low high = Returned res /\
    max_segment arr low high res.
Proof.
  induction fuel as [|fuel IH]; intros low high Hl Hh Hsize.
  - assert (low = high) as -> by (simpl in Hsize; lia).
    simpl. rewrite Z.eqb_refl.
    destruct (py_getitem_inside arr high ltac:(lia)) as (a & -> & Ha).
    exists (Fin a, high, high). split; [done|]. exists a, high, high.
    split; [done|]. split; [lia|]. split; [lia|].
    assert (seg_sum arr high high = a) as Hs.
    { rewrite (seg_sum_right arr high high a), seg_sum_empty by (lia || done). lia. }
    split; [done|]. intros i j Hi Hj. assert (i = high /\ j = high) as [-> ->] by lia. lia.
  - change (divide_and_conquer (S (S fuel)) arr low high) with
      (if low =? high then
         match py_getitem arr low with
         | Some a => Returned (Fin a, low, high)
         | None => Raised IndexErr
         end
       else
         let mid := (low + high) / 2 in
         match divide_and_conquer (S fuel) arr low mid with
         | Returned (left_sum, left_low, left_high) =>
             match divide_and_conquer (S fuel) arr (mid + 1) high with
             | Returned (right_sum, right_low, right_high) =>
                 match max_crossing_sum arr low mid high with
                 | Returned (cross_sum, cross_low, cross_high) =>
                     if num_ge left_sum right_sum && num_ge left_sum cross_sum
                     then Returned (left_sum, left_low, left_high)
                     else if num_ge right_sum left_sum && num_ge right_sum cross_sum
                     then Returned (right_sum, right_low, right_high)
                     else Returned (cross_sum, cross_low, cross_high)
                 | Raised e => Raised e
                 | TooDeep => TooDeep
                 end
             | Raised e => Raised e
             | TooDeep => TooDeep
             end
         | Raised e => Raised e
         | TooDeep => TooDeep
         end).
    destruct (Z.eqb_spec low high) as [->|Hne].
    + destruct (py_getitem_inside arr high ltac:(lia)) as (a & -> & Ha).
      exists (Fin a, high, high). split; [done|]. exists a, high, high.
      split; [done|]. split; [lia|]. split; [lia|].
      assert (seg_sum arr high high = a) as Hs.
      { rewrite (seg_sum_right arr high high a), seg_sum_empty by (lia || done). lia. }
      split; [done|]. intros i j Hi Hj. assert (i = high /\ j = high) as [-> ->] by lia. lia.
    + cbv zeta. set (mid := (low + high) / 2).
      assert (low <= mid < high) as Hmid.
      { unfold mid. pose proof (Z.div_mod (low + high) 2 ltac:(lia)).
        pose proof (Z.mod_pos_bound (low + high) 2 ltac:(lia)). lia. }
      assert (2 * mid <= low + high < 2 * mid + 2) as Hmid2.
      { unfold mid. pose proof (Z.div_mod (low + high) 2 ltac:(lia)).
        pose proof (Z.mod_pos_bound (low + high) 2 ltac:(lia)). lia. }
      rewrite Nat2Z.inj_succ, Z.pow_succ_r in Hsize by lia.
      destruct (IH low mid) as (resL & -> & sL & lL & rL & -> & HL1 & HL2 & HsL & HmaxL);
        [lia..|].
      destruct (IH (mid + 1) high) as (resR & -> & sR & lR & rR & -> & HR1 & HR2 & HsR & HmaxR);
        [lia..|].
      destruct (crossing_ok low mid high) as (sC & lC & rC & -> & HC1 & HC2 & HsC & HmaxC);
        [lia..|].
      assert (forall i j, low <= i <= j -> j <= high ->
                seg_sum arr i j <= sL \/ seg_sum arr i j <= sR \/ seg_sum arr i j <= sC)
        as Hcases.
      { intros i j Hi Hj. destruct (Z.le_gt_cases j mid).
        - left. apply HmaxL; lia.
        - destruct (Z.le_gt_cases i mid).
          + right. right. apply HmaxC; lia.
          + right. left. apply HmaxR; lia. }
      simpl.
      destruct (Z.leb_spec sR sL), (Z.leb_spec sC sL), (Z.leb_spec sL sR),
        (Z.leb_spec sC sR); simpl;
        eexists; (split; [done|]); eexists _, _, _; (split; [done|]);
        (split; [lia|]); (split; [lia|]); (split; [done|]);
        intros i j Hi Hj; destruct (Hcases i j Hi Hj) as [?|[?|?]]; lia.
Qed.

End divide.

(** X15: for 0 <= low <= mid < high < len(arr), [max_crossing_sum] raises
    nothing and returns the sum and the end indices of a segment that starts
    in [low..mid] and ends in [mid+1..high], whose sum no such segment
    exceeds. *)
Theorem max_crossing_sum_correct (arr : list Z) (low mid high : Z) :
  0 <= low <= mid -> mid < high -> high < Z.of_nat (length arr) ->
  exists s ml mr,
    max_crossing_sum arr low mid high = Returned (Fin s, ml, mr) /\
    low <= ml <= mid /\ mid < mr <= high /\ s = seg_sum arr ml mr /\
    forall i j, low <= i <= mid -> mid < j <= high -> seg_sum arr i j <= s.
Proof. apply crossing_ok. Qed.

Lemma max_crossing_sum_correct_witness :
  exists s ml mr,
    max_crossing_sum [-2; 1; -3; 4; -1; 2; 1; -5; 4] 0 4 8 = Returned (Fin s, ml, mr) /\
    s = seg_sum [-2; 1; -3; 4; -1; 2; 1; -5; 4] ml mr.
Proof.
  destruct (max_crossing_sum_correct [-2; 1; -3; 4; -1; 2; 1; -5; 4] 0 4 8)
    as (s & ml & mr & H & _ & _ & Hs & _); [simpl; lia..|].
  by exists s, ml, mr.
Defined.

(** X16: for 0 <= low <= high < len(arr), [divide_and_conquer] returns,
    within a recursion depth of d + 1 when the range has at most 2^d
    elements, the sum and the end indices of a segment of [arr[low..high]]
    whose sum no segment of that range exceeds. *)
Theorem divide_and_conquer_correct (arr : list Z) (fuel : nat) (low high : Z) :
  0 <= low <= high -> high < Z.of_nat (length arr) ->
  high - low + 1 <= 2 ^ Z.of_nat fuel ->
  exists res,
    divide_and_conquer (S fuel) arr low high = Returned res /\
    max_segment arr low high res.
Proof. apply divide_and_conquer_ok. Qed.

Lemma divide_and_conquer_correct_witness :
  exists res,
    divide_and_conquer 5 [-2; 1; -3; 4; -1; 2; 1; -5; 4] 0 8 = Returned res /\
    max_segment [-2; 1; -3; 4; -1; 2; 1; -5; 4] 0 8 res.
Proof.
  apply (divide_and_conquer_correct [-2; 1; -3; 4; -1; 2; 1; -5; 4] 4 0 8);
    simpl; lia.
Defined.

(** X17: on a non-empty list of integers the brute force and the divide
    and conquer over the whole list return the same maximum sum. *)
Theorem max_subarray_agree (arr : list Z) (fuel : nat) :
  arr <> [] -> Z.of_nat (length arr) <= 2 ^ Z.of_nat fuel ->
  exists s l r l' r',
    brute_force_max_subarray arr = Some (Fin s, l, r) /\
    divide_and_conquer (S fuel) arr 0 (Z.of_nat (length arr) - 1)
      = Returned (Fin s, l', r').
Proof.
  intros Hne Hsize.
  destruct (brute_force_max_segment arr) as (res & Hb & _ & Hmax).
  destruct (Hmax Hne) as (s & l & r & -> & Hl & Hr & Hs & Hall).
  assert (0 < Z.of_nat (length arr)) by (destruct arr; [done|simpl; lia]).
  destruct (divide_and_conquer_ok arr fuel 0 (Z.of_nat (length arr) - 1))
    as (res' & Hd & s' & l' & r' & -> & Hl' & Hr' & Hs' & Hall'); [lia..|].
  exists s, l, r, l', r'. split; [done|].
  assert (s = s') as ->; [|done].
  specialize (Hall l' r' Hl' Hr'). specialize (Hall' l r Hl Hr). lia.
Qed.

Lemma max_subarray_agree_witness :
  exists s l r l' r',
    brute_force_max_subarray [-3; -1; -2] = Some (Fin s, l, r) /\
    divide_and_conquer 3 [-3; -1; -2] 0 (Z.of_nat (length [-3; -1; -2]) - 1)
      = Returned (Fin s, l', r').
Proof.
  apply (max_subarray_agree [-3; -1; -2] 2); [discriminate|simpl; lia].
Defined.

(** X18: called with high < low, as on an empty list with
    [divide_and_conquer(data, 0, len(data) - 1)], the recursion of
    [divide_and_conquer] never reaches its base case: every depth bound is
    exceeded. *)
Theorem divide_and_conquer_empty_range (arr : list Z) (fuel : nat) (low high : Z) :
  high < low -> divide_and_conquer fuel arr low high = TooDeep.
Proof.
  revert low high. induction fuel as [|fuel IH]; intros low high Hlt; [done|].
  simpl. destruct (Z.eqb_spec low high); [lia|].
  rewrite IH; [done|].
  pose proof (Z.div_mod (low + high) 2 ltac:(lia)).
  pose proof (Z.mod_pos_bound (low + high) 2 ltac:(lia)). lia.
Qed.

Lemma divide_and_conquer_empty_range_witness :
  divide_and_conquer 1000 [] 0 (Z.of_nat (length (@nil Z)) - 1) = TooDeep.
Proof. apply divide_and_conquer_empty_range. simpl. lia. Defined.
